(** * Inverted-index builder ([index_builder.py]): a shallow embedding

    The class [IndexBuilder] reads product records, tokenizes their text
    fields and accumulates five tables: two positional indexes (title,
    description), two categorical indexes (brand, origin) and a table of
    review statistics.  [search_title] answers AND-queries over a positional
    index.

    Modelling choices.
    - A Python [str] is a [string]; each [ascii] is read as the code point
      of the same number (the Latin-1 block, U+0000 to U+00FF).  On that
      block [str.lower], [str.isspace] and the regular-expression class
      [\s] are the functions [lower_char] and [is_space] below.
    - A decoded JSON value is a [json]; an integer literal is a Python
      [int], unbounded, and a literal with a fraction or an exponent, or
      one of [NaN], [Infinity], [-Infinity], is a Python float.
    - [sum] adds from left to right with the addition of its operands, as
      CPython does up to version 3.11 (later versions compensate the
      rounding of float additions).
    - A url is any decoded value; as a dictionary key or set element it is
      a [key], and a list or dict, being unhashable, raises where the
      program hashes it.
    - A Python float that the program computes is a [spec_float] of the
      binary64 format, with the operations of the standard library's
      IEEE 754 specification.
    - The tables live in a record [builder]; a method that mutates them is
      a function in the state-and-exception monad [M]. *)

From Stdlib Require Import ZArith Ascii String Sorting.Sorted Floats.SpecFloat.
From stdpp Require Import gmap strings list.

Local Open Scope Z_scope.

(** ** Characters and strings *)

Module Chars.

Definition code (c : ascii) : N := N_of_ascii c.

Definition in_range (lo hi : N) (c : ascii) : bool :=
  ((lo <=? code c) && (code c <=? hi))%N.

(** [str.isspace] on one character, which is also what [\s] matches in a
    [str] pattern: TAB..CR, FS..US, SPACE, NEL and NBSP. *)
Definition is_space (c : ascii) : bool :=
  in_range 9 13 c || in_range 28 32 c
  || (code c =? 133)%N || (code c =? 160)%N.

(** Upper-case letters of the block: A..Z and the accented capitals
    U+00C0..U+00DE without the multiplication sign U+00D7. *)
Definition is_upper (c : ascii) : bool :=
  in_range 65 90 c || (in_range 192 222 c && negb (code c =? 215)%N).

Definition lower_char (c : ascii) : ascii :=
  if is_upper c then ascii_of_N (code c + 32) else c.

(** The class [[a-z0-9\s]]. *)
Definition is_lower_alnum (c : ascii) : bool :=
  in_range 97 122 c || in_range 48 57 c.

Definition is_kept (c : ascii) : bool := is_lower_alnum c || is_space c.

(** One step of [re.sub(r'[^a-z0-9\s]', ' ', text)]. *)
Definition sub_char (c : ascii) : ascii :=
  if is_kept c then c else " "%char.

End Chars.

Import Chars.

Fixpoint map_chars (f : ascii -> ascii) (s : string) : string :=
  match s with
  | EmptyString => EmptyString
  | String c s' => String (f c) (map_chars f s')
  end.

Fixpoint all_chars (p : ascii -> bool) (s : string) : bool :=
  match s with
  | EmptyString => true
  | String c s' => p c && all_chars p s'
  end.

(** [text.lower()] *)
Definition lower (text : string) : string := map_chars lower_char text.

(** [re.sub(r'[^a-z0-9\s]', ' ', text)] *)
Definition sub_non_alnum (text : string) : string := map_chars sub_char text.

(** [text.split()]: scan left to right; [cur] is the fragment being read.
    A whitespace character closes the fragment (if one is open), so runs of
    whitespace separate and no empty string is produced. *)
Fixpoint split_from (cur : string) (s : string) : list string :=
  match s with
  | EmptyString => if decide (cur = "") then [] else [cur]
  | String c s' =>
      if is_space c then
        if decide (cur = "") then split_from "" s'
        else cur :: split_from "" s'
      else split_from (cur +:+ String c "") s'
  end.

Definition split (s : string) : list string := split_from "" s.

Definition STOPWORDS : list string :=
  [ "the"; "a"; "an"; "and"; "or"; "but"; "in"; "on"; "at"; "to"; "for";
    "of"; "with"; "by"; "from"; "is"; "are"; "am"; "be"; "been"; "being";
    "that"; "this"; "these"; "those"; "i"; "you"; "he"; "she"; "it"; "we";
    "they" ].

(** [IndexBuilder.tokenize] *)
Definition tokenize (text : string) : list string :=
  let text := lower text in
  let text := sub_non_alnum text in
  let tokens := split text in
  filter (λ t, t ≠ "" ∧ t ∉ STOPWORDS) tokens.

(** The tokenizer as the specification words it: cut the normalised text at
    every whitespace character, drop the empty fragments, drop the
    stopwords. *)
Fixpoint fields (s : string) : list string :=
  match s with
  | EmptyString => [""]
  | String c s' =>
      if is_space c then "" :: fields s'
      else match fields s' with
           | [] => [String c ""]
           | w :: ws => String c w :: ws
           end
  end.

Definition tokenize_spec (text : string) : list string :=
  filter (λ t, t ∉ STOPWORDS)
    (filter (λ t, t ≠ "") (fields (sub_non_alnum (lower text)))).

(** A token in canonical form: non-empty, only [a-z0-9]. *)
Definition canonical (t : string) : Prop :=
  t ≠ "" ∧ all_chars is_lower_alnum t = true.

(** ** Decoded JSON values *)

#[local] Set Warnings "-register-all".

(** What [json.loads] returns.  A [JDict] lists the entries of the decoded
    [dict]; a key is looked up by its first entry.  A [JFloat] is a float
    object: its binary64 value, in normal form, and its identity, which is
    what Python hashes and compares when the value is NaN. *)
Inductive json :=
| JNull
| JBool (b : bool)
| JInt (z : Z)
| JStr (s : string)
| JList (l : list json)
| JDict (d : list (string * json))
| JFloat (f : spec_float) (id : N).

Coercion JStr : string >-> json.

(** [bool(v)] *)
Definition truthy (v : json) : bool :=
  match v with
  | JNull => false
  | JBool b => b
  | JInt z => negb (z =? 0)
  | JStr s => negb (bool_decide (s = ""))
  | JList l => negb (bool_decide (l = []))
  | JDict d => negb (bool_decide (d = []))
  | JFloat f _ => match f with S754_zero _ => false | _ => true end
  end.

(** [isinstance(v, str)] *)
Definition is_str (v : json) : bool :=
  match v with JStr _ => true | _ => false end.

Fixpoint dict_lookup (k : string) (d : list (string * json)) : option json :=
  match d with
  | [] => None
  | (k', v) :: d' => if decide (k' = k) then Some v else dict_lookup k d'
  end.

Global Instance spec_float_eq_dec : EqDecision spec_float.
Proof. solve_decision. Defined.

Global Instance spec_float_countable : Countable spec_float.
Proof.
  refine (inj_countable'
    (λ f, match f with
          | S754_zero s => inl (inl s)
          | S754_infinity s => inl (inr s)
          | S754_nan => inr (inl ())
          | S754_finite s m e => inr (inr (s, m, e))
          end)
    (λ x, match x with
          | inl (inl s) => S754_zero s
          | inl (inr s) => S754_infinity s
          | inr (inl _) => S754_nan
          | inr (inr (s, m, e)) => S754_finite s m e
          end) _).
  by intros [].
Defined.

(** A value used as a dictionary key or set element.  Python identifies
    [True] with [1], [False] with [0] and a float that is a whole number
    with that integer; a NaN is equal to itself only as the same object;
    lists and dicts are unhashable. *)
Inductive key :=
| KNone
| KInt (z : Z)
| KStr (s : string)
| KFloat (f : spec_float)
| KNaN (id : N).

Global Instance key_eq_dec : EqDecision key.
Proof. solve_decision. Defined.

Global Instance key_countable : Countable key.
Proof.
  refine (inj_countable'
    (λ k, match k with
          | KNone => inl (inl ())
          | KInt z => inl (inr z)
          | KStr s => inr (inl s)
          | KFloat f => inr (inr (inl f))
          | KNaN id => inr (inr (inr id))
          end)
    (λ x, match x with
          | inl (inl _) => KNone
          | inl (inr z) => KInt z
          | inr (inl s) => KStr s
          | inr (inr (inl f)) => KFloat f
          | inr (inr (inr id)) => KNaN id
          end) _).
  by intros [].
Defined.

(** The integer a float is equal to, when it is a whole number. *)
Definition float_integer (f : spec_float) : option Z :=
  match f with
  | S754_zero _ => Some 0
  | S754_finite s m e =>
      let sign := if s then -1 else 1 in
      if 0 <=? e then Some (sign * (Zpos m * 2 ^ e))
      else if Zpos m mod 2 ^ (- e) =? 0
           then Some (sign * (Zpos m / 2 ^ (- e)))
           else None
  | S754_infinity _ | S754_nan => None
  end.

Definition hash_key (v : json) : option key :=
  match v with
  | JNull => Some KNone
  | JBool b => Some (KInt (if b then 1 else 0))
  | JInt z => Some (KInt z)
  | JStr s => Some (KStr s)
  | JFloat f id =>
      match f with
      | S754_nan => Some (KNaN id)
      | _ => match float_integer f with
             | Some z => Some (KInt z)
             | None => Some (KFloat f)
             end
      end
  | JList _ | JDict _ => None
  end.

(** ** The builder's tables *)

Inductive number :=
| NInt (z : Z)
| NFloat (f : spec_float).

Record review_stats := {
  total_reviews : nat;
  mean_mark : number;
  last_rating : json
}.

(** [defaultdict(lambda: defaultdict(list))] and [defaultdict(set)] *)
Abbreviation positional := (gmap string (gmap key (list nat))).
Abbreviation categorical := (gmap string (gset key)).

Record builder := {
  title_index : positional;
  description_index : positional;
  brand_index : categorical;
  origin_index : categorical;
  reviews_index : gmap key review_stats
}.

(** [IndexBuilder.__init__] *)
Definition init : builder :=
  {| title_index := ∅; description_index := ∅;
     brand_index := ∅; origin_index := ∅; reviews_index := ∅ |}.

Definition set_title_index (i : positional) (b : builder) : builder :=
  {| title_index := i; description_index := description_index b;
     brand_index := brand_index b; origin_index := origin_index b;
     reviews_index := reviews_index b |}.

Definition set_description_index (i : positional) (b : builder) : builder :=
  {| title_index := title_index b; description_index := i;
     brand_index := brand_index b; origin_index := origin_index b;
     reviews_index := reviews_index b |}.

Definition set_brand_index (i : categorical) (b : builder) : builder :=
  {| title_index := title_index b; description_index := description_index b;
     brand_index := i; origin_index := origin_index b;
     reviews_index := reviews_index b |}.

Definition set_origin_index (i : categorical) (b : builder) : builder :=
  {| title_index := title_index b; description_index := description_index b;
     brand_index := brand_index b; origin_index := i;
     reviews_index := reviews_index b |}.

Definition set_reviews_index (i : gmap key review_stats) (b : builder)
  : builder :=
  {| title_index := title_index b; description_index := description_index b;
     brand_index := brand_index b; origin_index := origin_index b;
     reviews_index := i |}.

(** ** State and exceptions *)

Inductive exn :=
| AttributeError
| TypeError
| KeyError
| ZeroDivisionError
| OverflowError
| RecursionError
| ValueError.

Inductive res (A : Type) :=
| Val (a : A)
| Exc (e : exn).
Arguments Val {A} a.
Arguments Exc {A} e.

(** A computation on a mutable state [St]: it returns or raises, and in both
    cases leaves a state behind. *)
Definition M (St A : Type) : Type := St → res A * St.

Definition ret {St A} (a : A) : M St A := λ s, (Val a, s).

Definition raise {St A} (e : exn) : M St A := λ s, (Exc e, s).

Definition bind {St A B} (m : M St A) (k : A → M St B) : M St B :=
  λ s, match m s with
       | (Val a, s') => k a s'
       | (Exc e, s') => (Exc e, s')
       end.

Notation "'do' x <- m ; k" := (bind m (λ x, k))
  (at level 10, x name, m at level 100, k at level 200,
   format "'[v' 'do'  x  <-  m ; '/' k ']'").
Notation "'run' m ; k" := (bind m (λ _, k))
  (at level 10, m at level 100, k at level 200,
   format "'[v' 'run'  m ; '/' k ']'").

(** Run a computation on one table of the builder. *)
Definition zoom {St T A} (get : St → T) (set : T → St → St) (m : M T A)
  : M St A :=
  λ s, let '(r, t) := m (get s) in (r, set t s).

(** [for x in l: body] *)
Fixpoint for_each {St A} (l : list A) (body : A → M St unit) : M St unit :=
  match l with
  | [] => ret tt
  | x :: l' => run body x; for_each l' body
  end.

(** [[f(x) for x in l]] *)
Fixpoint map_m {St A B} (f : A → M St B) (l : list A) : M St (list B) :=
  match l with
  | [] => ret []
  | x :: l' => do y <- f x; do ys <- map_m f l'; ret (y :: ys)
  end.

(** ** Python operations on decoded values *)

Section PyOps.
Context {St : Type}.

(** [v.get(k, default)]: only a [dict] has the method. *)
Definition py_get (v : json) (k : string) (default : json) : M St json :=
  match v with
  | JDict d =>
      ret (match dict_lookup k d with Some x => x | None => default end)
  | _ => raise AttributeError
  end.

(** [needle in hay] for two strings: [needle] occurs as a substring. *)
Fixpoint is_substring (needle hay : string) : bool :=
  String.prefix needle hay
  || match hay with
     | EmptyString => false
     | String _ hay' => is_substring needle hay'
     end.

(** [k in v] for a string [k]: key of a dict, element of a list, substring
    of a string; the other values are not containers. *)
Definition py_in (k : string) (v : json) : M St bool :=
  match v with
  | JDict d => ret (bool_decide (is_Some (dict_lookup k d)))
  | JList l =>
      ret (existsb (λ x, match x with
                         | JStr s => bool_decide (s = k)
                         | _ => false
                         end) l)
  | JStr s => ret (is_substring k s)
  | JNull | JBool _ | JInt _ | JFloat _ _ => raise TypeError
  end.

(** [v[k]] for a string [k]. *)
Definition py_getitem (v : json) (k : string) : M St json :=
  match v with
  | JDict d =>
      match dict_lookup k d with
      | Some x => ret x
      | None => raise KeyError
      end
  | _ => raise TypeError
  end.

(** The values a [for] loop over [v] visits: the elements of a list, the
    keys of a dict, the characters of a string. *)
Definition py_iter (v : json) : M St (list json) :=
  match v with
  | JList l => ret l
  | JDict d => ret (JStr <$> remove_dups (d.*1))
  | JStr s =>
      ret ((λ c, JStr (String c "")) <$> list_ascii_of_string s)
  | JNull | JBool _ | JInt _ | JFloat _ _ => raise TypeError
  end.

(** [len(v)] *)
Definition py_len (v : json) : M St nat :=
  match v with
  | JList l => ret (length l)
  | JDict d => ret (length (remove_dups (d.*1)))
  | JStr s => ret (String.length s)
  | JNull | JBool _ | JInt _ | JFloat _ _ => raise TypeError
  end.

(** [self.tokenize(text)]: [text.lower()] exists on a [str] only. *)
Definition py_tokenize (text : json) : M St (list string) :=
  match text with
  | JStr s => ret (tokenize s)
  | _ => raise AttributeError
  end.

End PyOps.

(** ** Floats: true division and [round(x, 2)] *)

Module F64.

Definition prec : Z := 53.
Definition emax : Z := 1024.

(** An integer as an operand of a division, exact whatever its size. *)
Definition operand (z : Z) : spec_float :=
  match z with
  | Z0 => S754_zero false
  | Zpos p => S754_finite false p 0
  | Zneg p => S754_finite true p 0
  end.

Definition finite_or_overflow {St} (f : spec_float) : M St spec_float :=
  match f with
  | S754_infinity _ | S754_nan => raise OverflowError
  | _ => ret f
  end.

(** The quotient of two integers, correctly rounded to binary64 (ties to
    even). *)
Definition quotient (a b : Z) : spec_float :=
  SFdiv prec emax (operand a) (operand b).

(** [a / b] on two Python integers; too large a quotient raises. *)
Definition truediv {St} (a b : Z) : M St spec_float :=
  if b =? 0 then raise ZeroDivisionError
  else finite_or_overflow (quotient a b).

(** [n / d] rounded to the nearest integer, ties to the even one. *)
Definition div_half_even (n d : Z) : Z :=
  let q := n / d in
  match 2 * (n mod d) ?= d with
  | Lt => q
  | Gt => q + 1
  | Eq => if Z.even q then q else q + 1
  end.

(** The magnitude [m * 2^e], in hundredths, rounded to an integer. *)
Definition hundredths (m : positive) (e : Z) : Z :=
  if 0 <=? e then Zpos m * 2 ^ e * 100
  else div_half_even (Zpos m * 100) (2 ^ (- e)).

(** The decimal with two places nearest to the exact value of a finite [x]
    (ties to even), converted back to the nearest binary64. *)
Definition round2_val (x : spec_float) : spec_float :=
  match x with
  | S754_finite s m e =>
      match hundredths m e with
      | Zpos k => SFdiv prec emax (S754_finite s k 0) (operand 100)
      | _ => S754_zero s
      end
  | _ => x
  end.

(** [round(x, 2)]: infinities and NaN round to themselves; a finite value
    whose rounding does not fit raises. *)
Definition round2 {St} (x : spec_float) : M St spec_float :=
  match x with
  | S754_finite _ _ _ => finite_or_overflow (round2_val x)
  | _ => ret x
  end.

(** The float equal to a small integer, as Python prints it: [of_int 4] is
    [4.0]; for any integer, the float nearest to it. *)
Definition of_int (z : Z) : spec_float := binary_normalize prec emax z 0 false.

(** An integer operand of a float operation is converted to the nearest
    float; an integer too large for one raises. *)
Definition to_float {St} (z : Z) : M St spec_float :=
  finite_or_overflow (of_int z).

End F64.

(** ** Sums and means of ratings *)

Section PyNumbers.
Context {St : Type}.

(** [acc + r], the step of [sum]: integers and booleans add exactly; with a
    float on either side the other operand is converted and the floats are
    added; anything else is not a number. *)
Definition py_add (acc : number) (r : json) : M St number :=
  match acc, r with
  | NInt a, JInt z => ret (NInt (a + z))
  | NInt a, JBool b => ret (NInt (a + (if b then 1 else 0)))
  | NInt a, JFloat f _ =>
      do fa <- F64.to_float a;
      ret (NFloat (SFadd F64.prec F64.emax fa f))
  | NFloat g, JInt z =>
      do fz <- F64.to_float z;
      ret (NFloat (SFadd F64.prec F64.emax g fz))
  | NFloat g, JBool b =>
      do fz <- F64.to_float (if b then 1 else 0);
      ret (NFloat (SFadd F64.prec F64.emax g fz))
  | NFloat g, JFloat f _ => ret (NFloat (SFadd F64.prec F64.emax g f))
  | _, _ => raise TypeError
  end.

Fixpoint py_sum_from (acc : number) (l : list json) : M St number :=
  match l with
  | [] => ret acc
  | r :: l' => do acc' <- py_add acc r; py_sum_from acc' l'
  end.

(** [sum(ratings)]: starts from the integer 0. *)
Definition py_sum (l : list json) : M St number := py_sum_from (NInt 0) l.

(** [total / n] for an integer [n]: true division of two integers, or
    float division after converting [n]. *)
Definition py_div (total : number) (n : Z) : M St spec_float :=
  match total with
  | NInt s => F64.truediv s n
  | NFloat g =>
      do fn <- F64.to_float n;
      if n =? 0 then raise ZeroDivisionError
      else ret (SFdiv F64.prec F64.emax g fn)
  end.

End PyNumbers.

(** ** The index builders *)

(** [index[token][url].append(position)] on a positional index.  Reading
    [index[token]] creates the token's postings when they are missing, and
    that happens before [url] is hashed. *)
Definition positional_append (token : string) (url : json) (position : nat)
  : M positional unit :=
  λ index,
    let postings := default ∅ (index !! token) in
    match hash_key url with
    | None => (Exc TypeError, <[token := postings]> index)
    | Some k =>
        let positions := default [] (postings !! k) in
        (Val tt, <[token := <[k := positions ++ [position]]> postings]> index)
    end.

(** [index[token].add(url)] on a categorical index. *)
Definition categorical_add (token : string) (url : json)
  : M categorical unit :=
  λ index,
    let urls := default ∅ (index !! token) in
    match hash_key url with
    | None => (Exc TypeError, <[token := urls]> index)
    | Some k => (Val tt, <[token := {[k]} ∪ urls]> index)
    end.

(** [enumerate(l)] *)
Fixpoint enumerate_from {A} (i : nat) (l : list A) : list (nat * A) :=
  match l with
  | [] => []
  | x :: l' => (i, x) :: enumerate_from (S i) l'
  end.

Definition enumerate {A} (l : list A) : list (nat * A) := enumerate_from 0 l.

(** [IndexBuilder._index_text], acting on the index it is given. *)
Definition _index_text (text url : json) : M positional unit :=
  do tokens <- py_tokenize text;
  for_each (enumerate tokens) (λ '(position, token),
    if bool_decide (token ≠ "") then positional_append token url position
    else ret tt).

(** The [brand] and [made in] blocks of [_process_product]; [name] is the
    feature and the computation acts on that feature's index. *)
Definition index_feature (name : string) (features url : json)
  : M categorical unit :=
  do present <- py_in name features;
  if present : bool then
    do value <- py_getitem features name;
    if is_str value && truthy value then
      do tokens <- py_tokenize value;
      for_each tokens (λ token, categorical_add token url)
    else ret tt
  else ret tt.

(** [self.reviews_index[url] = stats] *)
Definition reviews_store (url : json) (stats : review_stats)
  : M (gmap key review_stats) unit :=
  λ table,
    match hash_key url with
    | None => (Exc TypeError, table)
    | Some k => (Val tt, <[k := stats]> table)
    end.

(** The [Reviews] block of [_process_product]. *)
Definition index_reviews (reviews url : json)
  : M (gmap key review_stats) unit :=
  if truthy reviews then
    do items <- py_iter reviews;
    do ratings <- map_m (λ review, py_get review "rating" (JInt 0)) items;
    do total <- py_len reviews;
    do mean <-
      (if bool_decide (ratings ≠ []) then
         do s <- py_sum ratings;
         do q <- py_div s (Z.of_nat (length ratings));
         do r <- F64.round2 q;
         ret (NFloat r)
       else ret (NInt 0));
    let last := List.last ratings (JInt 0) in
    reviews_store url
      {| total_reviews := total; mean_mark := mean; last_rating := last |}
  else
    reviews_store url
      {| total_reviews := 0; mean_mark := NInt 0; last_rating := JInt 0 |}.

(** The blocks of [_process_product], in the order of the source. *)

(** [# Process title] *)
Definition process_title (product url : json) : M builder unit :=
  do title <- py_get product "title" (JStr "");
  if truthy title
  then zoom title_index set_title_index (_index_text title url)
  else ret tt.

(** [# Process description] *)
Definition process_description (product url : json) : M builder unit :=
  do description <- py_get product "description" (JStr "");
  if truthy description
  then zoom description_index set_description_index
         (_index_text description url)
  else ret tt.

(** [# Process features (brand and origin only)] *)
Definition process_features (product url : json) : M builder unit :=
  do features <- py_get product "product_features" (JDict []);
  run zoom brand_index set_brand_index (index_feature "brand" features url);
  zoom origin_index set_origin_index (index_feature "made in" features url).

(** [# Reviews] *)
Definition process_reviews (product url : json) : M builder unit :=
  do reviews <- py_get product "product_reviews" (JList []);
  zoom reviews_index set_reviews_index (index_reviews reviews url).

(** [IndexBuilder._process_product] *)
Definition _process_product (product : json) : M builder unit :=
  do url <- py_get product "url" (JStr "");
  if negb (truthy url) then ret tt
  else
    run process_title product url;
    run process_description product url;
    run process_features product url;
    process_reviews product url.

(** ** Reading the file *)

(** One line of the input: [json.loads] decodes it, or raises
    [JSONDecodeError], or raises another exception ([RecursionError] on
    deeply nested brackets, [ValueError] on an integer literal with too many
    digits). *)
Inductive line :=
| Decoded (product : json)
| Undecodable
| DecodeRaises (e : exn).

(** What [process_jsonl] prints. *)
Inductive message :=
| JsonError (line_num : nat)
| ProcessingError (line_num : nat) (e : exn).

(** The loop of [IndexBuilder.process_jsonl] from line [line_num] on: both
    handlers print and go on with the next line; the state the failed record
    left behind is kept.  The second handler, [except Exception], also
    takes what [json.loads] raises besides [JSONDecodeError]. *)
Fixpoint process_lines (line_num : nat) (lines : list line) (b : builder)
  : builder * list message :=
  match lines with
  | [] => (b, [])
  | Undecodable :: rest =>
      let '(b', log) := process_lines (S line_num) rest b in
      (b', JsonError line_num :: log)
  | DecodeRaises e :: rest =>
      let '(b', log) := process_lines (S line_num) rest b in
      (b', ProcessingError line_num e :: log)
  | Decoded product :: rest =>
      match _process_product product b with
      | (Val _, b1) => process_lines (S line_num) rest b1
      | (Exc e, b1) =>
          let '(b', log) := process_lines (S line_num) rest b1 in
          (b', ProcessingError line_num e :: log)
      end
  end.

(** [IndexBuilder.process_jsonl] on an opened file. *)
Definition process_jsonl (lines : list line) (b : builder)
  : builder * list message :=
  process_lines 1 lines b.

(** ** Queries *)

(** The loop of [search_title]; [results] is [None] until the first token. *)
Fixpoint search_loop (index_dict : positional) (tokens : list string)
    (results : option (gset key)) : list key :=
  match tokens with
  | [] =>
      match results with
      | Some r => if bool_decide (r ≠ ∅) then elements r else []
      | None => []
      end
  | token :: rest =>
      match index_dict !! token with
      | Some postings =>
          let urls := dom postings in
          search_loop index_dict rest
            (Some (match results with
                   | None => urls
                   | Some r => r ∩ urls
                   end))
      | None => []
      end
  end.

(** [IndexBuilder.search_title].  The list it returns enumerates a set; the
    order is the set's iteration order. *)
Definition search_title (query : string) (index_dict : positional)
  : list key :=
  let tokens := tokenize query in
  if bool_decide (tokens = []) then []
  else search_loop index_dict tokens None.

(** ** Product identifiers in urls *)

(** [\d] on one character of the block: the ASCII digits. *)
Definition is_digit (c : ascii) : bool := in_range 48 57 c.

(** [s] without its prefix [p], when it starts with [p]. *)
Fixpoint drop_prefix (p s : string) : option string :=
  match p with
  | EmptyString => Some s
  | String a p' =>
      match s with
      | EmptyString => None
      | String c s' => if decide (a = c) then drop_prefix p' s' else None
      end
  end.

(** The longest prefix of [s] made of digits: what a greedy [\d+] takes. *)
Fixpoint take_digits (s : string) : string :=
  match s with
  | EmptyString => EmptyString
  | String c s' => if is_digit c then String c (take_digits s') else EmptyString
  end.

(** The pattern [/product/(\d+)] matched at the start of [url]: group 1. *)
Definition match_product_id (url : string) : option string :=
  match drop_prefix "/product/" url with
  | Some rest =>
      let digits := take_digits rest in
      if decide (digits = "") then None else Some digits
  | None => None
  end.

(** [re.search(r'/product/(\d+)', url)] followed by
    [match.group(1) if match else None]: the match at the leftmost position
    where there is one. *)
Fixpoint search_product_id (url : string) : option string :=
  match match_product_id url with
  | Some id => Some id
  | None =>
      match url with
      | EmptyString => None
      | String _ url' => search_product_id url'
      end
  end.

Section UrlInfo.

(** [parse_qs(urlparse(url).query).get('variant', [None])[0]], from the
    standard library: it gives the variant, or none, or raises. *)
Variable query_variant : string → res (option string).

(** [IndexBuilder.extract_url_info] *)
Definition extract_url_info (url : string)
  : res (option string * option string) :=
  let product_id := search_product_id url in
  match query_variant url with
  | Val variant => Val (product_id, variant)
  | Exc e => Exc e
  end.

End UrlInfo.

(** ** Queries over any index *)

(** The value an index holds for a token: a dict from documents to
    positions (title and description indexes), or a set of documents, a
    list once exported (brand and origin indexes). *)
Inductive postings :=
| Positions (by_url : gmap key (list nat))
| Documents (urls : gset key).



(** ** Notions the properties are stated with *)


(** The entries of an index that are dicts from documents to positions. *)
Definition positions (p : postings) : option (gmap key (list nat)) :=
  match p with
  | Positions by_url => Some by_url
  | Documents _ => None
  end.


(** The documents that have a postings entry for every token of [tokens]. *)
Definition in_all_postings (index_dict : positional) (tokens : list string)
    (u : key) : Prop :=
  ∀ t, t ∈ tokens →
       ∃ postings, index_dict !! t = Some postings ∧ u ∈ dom postings.

(** The zero-based positions at which [t] occurs in [tokens], from the
    enumeration of the tokens. *)
Definition positions_from (i : nat) (t : string) (tokens : list string)
  : list nat :=
  (filter (λ p, p.2 = t) (enumerate_from i tokens)).*1.

Definition positions_of (t : string) (tokens : list string) : list nat :=
  positions_from 0 t tokens.

(** The positions an index holds for a token and a document, if any. *)
Definition entry (index : positional) (t : string) (k : key)
  : option (list nat) :=
  index !! t ≫= (.!! k).

(** What one [append] makes of a positional index, for a hashable url. *)
Definition add_position (t : string) (k : key) (p : nat) (index : positional)
  : positional :=
  let postings := default ∅ (index !! t) in
  <[t := <[k := default [] (postings !! k) ++ [p]]> postings]> index.

(** The field of a record, as [product.get(name, default)] reads it. *)
Definition field (name : string) (default : json) (d : list (string * json))
  : json :=
  match dict_lookup name d with Some x => x | None => default end.

(** A computation leaves the observation [f] of the state alone, whether it
    returns or raises. *)
Definition preserves {St A X} (f : St → X) (m : M St A) : Prop :=
  ∀ s, f (snd (m s)) = f s.

(** [save_indexes] turns each set of a categorical index into a list:
    [{token: list(urls) for token, urls in index.items()}]. *)
Definition export_categorical (index : categorical) : gmap string (list key) :=
  elements <$> index.






(** What a computation that does not use the state returns or raises. *)
Definition value_of {A} (m : M unit A) : res A := fst (m tt).

(** The ratings of a list of review dicts: [review.get('rating', 0)]. *)
Definition ratings_of (rds : list (list (string * json))) : list json :=
  field "rating" (JInt 0) <$> rds.

(** The record the [Reviews] block builds from a non-empty list of review
    dicts, given the float [q] that [sum(ratings) / len(ratings)] is. *)
Definition stats_of (rds : list (list (string * json))) (q : spec_float)
  : review_stats :=
  {| total_reviews := length rds;
     mean_mark := NFloat (F64.round2_val q);
     last_rating := List.last (ratings_of rds) (JInt 0) |}.

Definition no_reviews : review_stats :=
  {| total_reviews := 0; mean_mark := NInt 0; last_rating := JInt 0 |}.

(** What a review statistics record must be, given the [product_reviews]
    value of the record. *)
Definition stats_spec (reviews : json) (stats : review_stats) : Prop :=
  if truthy reviews then
    ∃ rds total q,
      reviews = JList (JDict <$> rds)
      ∧ value_of (py_sum (ratings_of rds)) = Val total
      ∧ value_of (py_div total (Z.of_nat (length rds))) = Val q
      ∧ stats = stats_of rds q
  else stats = no_reviews.

(** The line a printed message is about. *)
Definition message_line (m : message) : nat :=
  match m with
  | JsonError n => n
  | ProcessingError n _ => n
  end.

(** A computation keeps the property [I] of the state, whether it returns
    or raises. *)
Definition invariant {St A} (I : St → Prop) (m : M St A) : Prop :=
  ∀ s, I s → I (snd (m s)).

(** An index term: canonical and not a stopword. *)
Definition token_ok (t : string) : Prop := canonical t ∧ t ∉ STOPWORDS.

Definition keys_ok {V} (index : gmap string V) : Prop :=
  ∀ t, is_Some (index !! t) → token_ok t.

Definition builder_keys_ok (b : builder) : Prop :=
  keys_ok (title_index b) ∧ keys_ok (description_index b)
  ∧ keys_ok (brand_index b) ∧ keys_ok (origin_index b).

(** [" ".join(words)] *)
Fixpoint join_space (words : list string) : string :=
  match words with
  | [] => ""
  | w :: ws =>
      match ws with
      | [] => w
      | _ :: _ => w +:+ String " " (join_space ws)
      end
  end.

Definition is_decoded (l : line) : bool :=
  match l with Decoded _ => true | Undecodable | DecodeRaises _ => false end.

(** Two positional indexes hold the same positions for document [k]. *)
Definition pos_same (k : key) (i i' : positional) : Prop :=
  ∀ t, entry i' t k = entry i t k.

(** Two categorical indexes list document [k] under the same tokens. *)
Definition cat_same (k : key) (c c' : categorical) : Prop :=
  ∀ t, k ∈ default ∅ (c' !! t) ↔ k ∈ default ∅ (c !! t).

Definition builder_same (k : key) (b b' : builder) : Prop :=
  pos_same k (title_index b) (title_index b')
  ∧ pos_same k (description_index b) (description_index b')
  ∧ cat_same k (brand_index b) (brand_index b')
  ∧ cat_same k (origin_index b) (origin_index b')
  ∧ reviews_index b' !! k = reviews_index b !! k.

(** [i'] keeps every token of [i], every document under it, and every
    position list as a prefix of the new one. *)
Definition pos_grows (i i' : positional) : Prop :=
  ∀ t postings, i !! t = Some postings →
    ∃ postings', i' !! t = Some postings'
      ∧ ∀ k l, postings !! k = Some l →
               ∃ l', postings' !! k = Some (l ++ l').

(** [c'] keeps every token of [c] and every document under it. *)
Definition cat_grows (c c' : categorical) : Prop :=
  ∀ t urls, c !! t = Some urls → ∃ urls', c' !! t = Some urls' ∧ urls ⊆ urls'.

Definition builder_grows (b b' : builder) : Prop :=
  pos_grows (title_index b) (title_index b')
  ∧ pos_grows (description_index b) (description_index b')
  ∧ cat_grows (brand_index b) (brand_index b')
  ∧ cat_grows (origin_index b) (origin_index b')
  ∧ dom (reviews_index b) ⊆ dom (reviews_index b').

(** Line [l] is reported with the processing error [e]: decoding it raises
    [e], which is no JSON decoding error, or the record it decodes to raises
    [e], from empty tables. *)
Definition line_raises (l : line) (e : exn) : Prop :=
  match l with
  | Decoded product => fst (_process_product product init) = Exc e
  | Undecodable => False
  | DecodeRaises e' => e' = e
  end.

(** Whether a computation returns or raises, and with what, does not depend
    on the state it starts from. *)
Definition stateless {St A} (m : M St A) : Prop :=
  ∀ s1 s2, fst (m s1) = fst (m s2).

(** What one [add] makes of a categorical index, for a hashable url. *)
Definition add_document (t : string) (k : key) (index : categorical)
  : categorical :=
  <[t := {[k]} ∪ default ∅ (index !! t)]> index.

(** The functions obtained by composing finitely many updates taken from
    [G]. *)
Inductive composed {St} (G : (St → St) → Prop) : (St → St) → Prop :=
| composed_id f : (∀ s, f s = s) → composed G f
| composed_step f g h :
    G g → composed G h → (∀ s, f s = g (h s)) → composed G f.

(** A computation whose outcome does not depend on the state and whose
    effect on the state is a composition of updates from [G]. *)
Definition acts {St A} (G : (St → St) → Prop) (m : M St A) : Prop :=
  stateless m ∧ ∃ f, composed G f ∧ ∀ s, snd (m s) = f s.

(** The updates a record with url key [k] can make to the tables. *)
Definition positional_update (k : key) (g : positional → positional) : Prop :=
  ∃ t p, ∀ i, g i = add_position t k p i.

Definition categorical_update (k : key) (g : categorical → categorical)
  : Prop :=
  ∃ t, ∀ c, g c = add_document t k c.

Definition reviews_update (k : key)
    (g : gmap key review_stats → gmap key review_stats) : Prop :=
  ∃ stats, ∀ r, g r = <[k := stats]> r.

Inductive record_update (k : key) : (builder → builder) → Prop :=
| update_title g u :
    positional_update k u →
    (∀ b, g b = set_title_index (u (title_index b)) b) → record_update k g
| update_description g u :
    positional_update k u →
    (∀ b, g b = set_description_index (u (description_index b)) b) →
    record_update k g
| update_brand g u :
    categorical_update k u →
    (∀ b, g b = set_brand_index (u (brand_index b)) b) → record_update k g
| update_origin g u :
    categorical_update k u →
    (∀ b, g b = set_origin_index (u (origin_index b)) b) → record_update k g
| update_reviews g u :
    reviews_update k u →
    (∀ b, g b = set_reviews_index (u (reviews_index b)) b) →
    record_update k g.

(** * Properties *)

(** ** Characters *)

Ltac by_cases_on_char c :=
  destruct c as [[] [] [] [] [] [] [] []]; vm_compute; try reflexivity; try discriminate.

Lemma lower_char_idem c : lower_char (lower_char c) = lower_char c.
Proof. by_cases_on_char c. Qed.

Lemma lower_char_alnum c : is_lower_alnum c = true → lower_char c = c.
Proof. by_cases_on_char c. Qed.

Lemma sub_char_alnum c : is_lower_alnum c = true → sub_char c = c.
Proof. by_cases_on_char c. Qed.

Lemma alnum_not_space c : is_lower_alnum c = true → is_space c = false.
Proof. by_cases_on_char c. Qed.

Lemma sub_char_kept c : is_kept (sub_char c) = true.
Proof. by_cases_on_char c. Qed.

Lemma kept_not_space c :
  is_kept c = true → is_space c = false → is_lower_alnum c = true.
Proof. unfold is_kept. destruct (is_lower_alnum c); naive_solver. Qed.

(** ** Strings *)

Lemma append_cons a s t : String a s +:+ t = String a (s +:+ t).
Proof. reflexivity. Qed.

Lemma append_empty_r s : s +:+ "" = s.
Proof. induction s as [| a s IH]; [done | by rewrite append_cons, IH]. Qed.

Lemma append_snoc s c t : (s +:+ String c "") +:+ t = s +:+ String c t.
Proof. induction s as [| a s IH]; [done | by rewrite !append_cons, IH]. Qed.

Lemma append_eq_empty s t : s +:+ t = "" → s = "" ∧ t = "".
Proof. destruct s; [done | rewrite append_cons; discriminate]. Qed.

Lemma all_chars_append p s t :
  all_chars p (s +:+ t) = all_chars p s && all_chars p t.
Proof.
  induction s as [| a s IH]; [done |]. rewrite append_cons. simpl.
  rewrite IH. by destruct (p a).
Qed.

Lemma map_chars_id f p s :
  (∀ c, p c = true → f c = c) → all_chars p s = true → map_chars f s = s.
Proof.
  intros Hf. induction s as [| c s IH]; simpl; [done |].
  intros [Hc Hs]%andb_prop. by rewrite Hf, IH.
Qed.

Lemma lower_idem s : lower (lower s) = lower s.
Proof.
  unfold lower. induction s as [| c s IH]; simpl; [done |].
  by rewrite lower_char_idem, IH.
Qed.

Lemma sub_non_alnum_kept s : all_chars is_kept (sub_non_alnum s) = true.
Proof.
  unfold sub_non_alnum. induction s as [| c s IH]; simpl; [done |].
  by rewrite sub_char_kept, IH.
Qed.

(** ** [split] *)

Lemma fields_not_nil s : fields s ≠ [].
Proof. destruct s as [| c s]; simpl; [done |]. by repeat case_match. Qed.

(** [split_from] reads the fragments that [fields] cuts, the open fragment
    [cur] glued to the first one, and keeps the non-empty ones. *)
Lemma split_from_fields s : ∀ cur,
  split_from cur s =
  filter (λ t, t ≠ "")
    (match fields s with
     | [] => [cur]
     | w :: ws => (cur +:+ w) :: ws
     end).
Proof.
  induction s as [| c s IH]; intros cur; simpl.
  - rewrite append_empty_r. case_decide.
    + by rewrite filter_cons_False by tauto.
    + by rewrite filter_cons_True.
  - destruct (is_space c).
    + rewrite append_empty_r. specialize (IH "").
      assert (Hf : split_from "" s = filter (λ t, t ≠ "") (fields s)).
      { rewrite IH. destruct (fields s) eqn:E; [by apply fields_not_nil in E |].
        done. }
      case_decide.
      * by rewrite filter_cons_False by tauto.
      * by rewrite filter_cons_True, Hf.
    + rewrite IH. destruct (fields s) eqn:E; [by apply fields_not_nil in E |].
      by rewrite append_snoc.
Qed.

Lemma split_fields s : split s = filter (λ t, t ≠ "") (fields s).
Proof.
  unfold split. rewrite split_from_fields.
  destruct (fields s) eqn:E; [by apply fields_not_nil in E | done].
Qed.

(** A string without whitespace is one fragment. *)
Lemma split_from_word s : ∀ cur,
  all_chars (λ c, negb (is_space c)) s = true →
  cur +:+ s ≠ "" →
  split_from cur s = [cur +:+ s].
Proof.
  induction s as [| c s IH]; intros cur; simpl.
  - rewrite append_empty_r. intros _ ?. by case_decide.
  - intros [Hc Hs]%andb_prop Hne. apply negb_true_iff in Hc. rewrite Hc.
    rewrite IH; [by rewrite append_snoc | done |].
    by rewrite append_snoc.
Qed.

(** Every fragment is non-empty and made of characters that are not
    whitespace. *)
Lemma split_from_alnum s : ∀ cur t,
  all_chars is_kept s = true →
  all_chars is_lower_alnum cur = true →
  t ∈ split_from cur s →
  canonical t.
Proof.
  induction s as [| c s IH]; intros cur t; simpl.
  - intros _ Hcur. case_decide; [by intros ?%elem_of_nil |].
    intros ->%list_elem_of_singleton. done.
  - intros [Hc Hs]%andb_prop Hcur. destruct (is_space c) eqn:Hsp.
    + case_decide.
      * by apply IH.
      * intros [-> | Ht]%elem_of_cons; [done |]. by apply (IH "").
    + apply IH; [done |]. rewrite all_chars_append, Hcur. simpl.
      by rewrite (kept_not_space c).
Qed.

(** ** [tokenize] *)

Lemma tokenize_canonical s t :
  t ∈ tokenize s → canonical t ∧ t ∉ STOPWORDS.
Proof.
  unfold tokenize. intros [[_ Hstop] Ht]%list_elem_of_filter. split; [| done].
  eapply split_from_alnum; [apply sub_non_alnum_kept | | exact Ht]. done.
Qed.

Lemma tokenize_of_canonical t :
  canonical t →
  tokenize t = if decide (t ∈ STOPWORDS) then [] else [t].
Proof.
  intros [Hne Hall]. unfold tokenize, lower, sub_non_alnum.
  rewrite (map_chars_id lower_char is_lower_alnum) by auto using lower_char_alnum.
  rewrite (map_chars_id sub_char is_lower_alnum) by auto using sub_char_alnum.
  unfold split. rewrite split_from_word; simpl; [| | done].
  - case_decide.
    + by rewrite filter_cons_False by tauto.
    + by rewrite filter_cons_True.
  - clear Hne. induction t as [| c t IH]; simpl in *; [done |].
    apply andb_prop in Hall as [Hc Ht]. by rewrite (alnum_not_space c), IH.
Qed.

Lemma tokenize_lower s : tokenize (lower s) = tokenize s.
Proof. unfold tokenize. by rewrite lower_idem. Qed.

Lemma tokenize_refines s : tokenize s = tokenize_spec s.
Proof.
  unfold tokenize, tokenize_spec. rewrite split_fields.
  rewrite !list_filter_filter. apply list_filter_iff. intros t. tauto.
Qed.

Lemma STOPWORDS_NoDup : NoDup STOPWORDS.
Proof. apply (bool_decide_unpack _). vm_compute. reflexivity. Qed.

Lemma map_chars_append f s t :
  map_chars f (s +:+ t) = map_chars f s +:+ map_chars f t.
Proof.
  induction s as [| a s IH]; [done |].
  rewrite append_cons. simpl. by rewrite IH, append_cons.
Qed.

Lemma fields_append_space s t :
  fields (s +:+ String " " t) = fields s ++ fields t.
Proof.
  induction s as [| a s IH]; [done |].
  rewrite append_cons. simpl. rewrite IH.
  destruct (is_space a); [done |].
  destruct (fields s) eqn:E; [by apply fields_not_nil in E | done].
Qed.

(** Tokenizing two texts joined by a space gives the tokens of the first
    followed by the tokens of the second. *)
Lemma tokenize_append_space s t :
  tokenize (s +:+ String " " t) = tokenize s ++ tokenize t.
Proof.
  rewrite !tokenize_refines. unfold tokenize_spec, lower, sub_non_alnum.
  rewrite !map_chars_append. simpl.
  change (sub_char (lower_char " ")) with " "%char.
  by rewrite fields_append_space, !filter_app.
Qed.

(** ** Claim C2 *)

(** C2, as stated, counts 31 stopwords.  The table has 32 pairwise distinct
    words, and each of them is dropped. *)
Lemma C2_stopwords_are_not_31 :
  NoDup STOPWORDS
  ∧ Forall (λ t, tokenize t = []) STOPWORDS
  ∧ length STOPWORDS ≠ 31%nat.
Proof.
  split; [apply STOPWORDS_NoDup |]. split; [| by vm_compute].
  apply (bool_decide_unpack _). vm_compute. reflexivity.
Qed.

(** C2 (amended): [tokenize ""] is empty; [tokenize "The Quick-Fox!"] is
    [quick, fox]; tokenizing is insensitive to case; and [tokenize]
    lowercases, replaces every character outside [a-z0-9] and whitespace by
    a space, cuts at whitespace, and drops the empty fragments and the 32
    stopwords, keeping order and duplicates. *)
Theorem C2_tokenize_contract :
  tokenize "" = []
  ∧ tokenize "The Quick-Fox!" = ["quick"; "fox"]
  ∧ (∀ s, tokenize s = tokenize (lower s))
  ∧ tokenize "FOO" = tokenize "foo"
  ∧ (∀ s, tokenize s = tokenize_spec s)
  ∧ (∀ s t, tokenize (s +:+ String " " t) = tokenize s ++ tokenize t)
  ∧ tokenize "red shoe red hat" = ["red"; "shoe"; "red"; "hat"]
  ∧ NoDup STOPWORDS ∧ length STOPWORDS = 32%nat.
Proof.
  split; [by vm_compute |]. split; [by vm_compute |].
  split; [intros s; by rewrite tokenize_lower |].
  split; [by vm_compute |].
  split; [apply tokenize_refines |].
  split; [apply tokenize_append_space |].
  split; [by vm_compute |].
  split; [apply STOPWORDS_NoDup | reflexivity].
Qed.

(** ** [search_title] *)

Section Search.
Variable index_dict : positional.

Lemma search_loop_miss tokens : ∀ results t,
  t ∈ tokens → index_dict !! t = None →
  search_loop index_dict tokens results = [].
Proof.
  induction tokens as [| t0 tokens IH]; intros results t Ht Hnone.
  - by apply elem_of_nil in Ht.
  - simpl. destruct (index_dict !! t0) as [postings |] eqn:E; [| done].
    apply elem_of_cons in Ht as [-> | Ht]; [congruence |]. by eapply IH.
Qed.

Lemma search_loop_nodup tokens : ∀ results,
  NoDup (search_loop index_dict tokens results).
Proof.
  induction tokens as [| t0 tokens IH]; intros results; simpl.
  - destruct results; [| constructor].
    case_bool_decide; [apply NoDup_elements | constructor].
  - destruct (index_dict !! t0); [apply IH | constructor].
Qed.

Lemma search_loop_some tokens : ∀ r u,
  (∀ t, t ∈ tokens → is_Some (index_dict !! t)) →
  u ∈ search_loop index_dict tokens (Some r) ↔
  u ∈ r ∧ in_all_postings index_dict tokens u.
Proof.
  induction tokens as [| t0 tokens IH]; intros r u Hall; simpl.
  - case_bool_decide as Hr.
    + rewrite elem_of_elements. split; [| by intros []].
      intros ?. split; [done |]. by intros t ?%elem_of_nil.
    + subst r. split; [by intros ?%elem_of_nil |].
      by intros [?%not_elem_of_empty _].
  - destruct (Hall t0) as [postings E]; [by left |]. rewrite E.
    rewrite IH by (intros; apply Hall; by right).
    rewrite elem_of_intersection. split.
    + intros [[Hr Hu] Hrest]. split; [done |].
      intros t [-> | Ht]%elem_of_cons; [eauto | by apply Hrest].
    + intros [Hr Hrest]. split.
      * split; [done |]. destruct (Hrest t0) as (p & Hp & Hu); [by left |].
        congruence.
      * intros t Ht. apply Hrest. by right.
Qed.

Lemma search_loop_none tokens u :
  tokens ≠ [] →
  (∀ t, t ∈ tokens → is_Some (index_dict !! t)) →
  u ∈ search_loop index_dict tokens None ↔ in_all_postings index_dict tokens u.
Proof.
  destruct tokens as [| t0 tokens]; [done |]. intros _ Hall. simpl.
  destruct (Hall t0) as [postings E]; [by left |]. rewrite E.
  rewrite search_loop_some by (intros; apply Hall; by right). split.
  - intros [Hu Hrest] t [-> | Ht]%elem_of_cons; [eauto | by apply Hrest].
  - intros Hrest. split.
    + destruct (Hrest t0) as (p & Hp & Hu); [by left | congruence].
    + intros t Ht. apply Hrest. by right.
Qed.

End Search.


(** ** [search_title] on an index of either kind *)




(** ** Claim C1 *)



(** ** The monad *)

Lemma bind_val {St A B} (m : M St A) (k : A → M St B) s a s' :
  m s = (Val a, s') → bind m k s = k a s'.
Proof. unfold bind. by intros ->. Qed.

Lemma bind_exc {St A B} (m : M St A) (k : A → M St B) s e s' :
  m s = (Exc e, s') → bind m k s = (Exc e, s').
Proof. unfold bind. by intros ->. Qed.

(** What the continuation leaves alone is what the first computation left. *)
Lemma bind_preserved {St A B X} (f : St → X) (m : M St A) (k : A → M St B) :
  (∀ a s, f (snd (k a s)) = f s) →
  ∀ s, f (snd (bind m k s)) = f (snd (m s)).
Proof.
  intros Hk s. unfold bind. destruct (m s) as [[a | e] s']; [apply Hk | done].
Qed.

Lemma zoom_snd {St T A} (get : St → T) (set : T → St → St) (m : M T A) s :
  snd (zoom get set m s) = set (snd (m (get s))) s.
Proof. unfold zoom. by destruct (m (get s)). Qed.

Lemma zoom_fst {St T A} (get : St → T) (set : T → St → St) (m : M T A) s :
  fst (zoom get set m s) = fst (m (get s)).
Proof. unfold zoom. by destruct (m (get s)). Qed.

(** ** Positional indexes *)

Lemma positional_append_hashable token url k position index :
  hash_key url = Some k →
  positional_append token url position index
  = (Val tt, add_position token k position index).
Proof. unfold positional_append, add_position. by intros ->. Qed.

Lemma entry_add_position t k p index t' :
  entry (add_position t k p index) t' k
  = if decide (t = t') then Some (default [] (entry index t' k) ++ [p])
    else entry index t' k.
Proof.
  unfold entry, add_position. case_decide as Ht.
  - subst t'. rewrite lookup_insert_eq. simpl. rewrite lookup_insert_eq.
    by destruct (index !! t).
  - by rewrite lookup_insert_ne.
Qed.

Lemma positions_from_cons i t tok tokens :
  positions_from i t (tok :: tokens)
  = if decide (tok = t) then i :: positions_from (S i) t tokens
    else positions_from (S i) t tokens.
Proof.
  unfold positions_from. simpl. case_decide.
  - by rewrite filter_cons_True.
  - by rewrite filter_cons_False.
Qed.

(** The loop of [_index_text] on tokens numbered from [i]. *)
Lemma index_loop url k tokens : ∀ i index,
  hash_key url = Some k →
  Forall (λ t, t ≠ "") tokens →
  ∃ index',
    for_each (enumerate_from i tokens) (λ '(position, token),
      if bool_decide (token ≠ "") then positional_append token url position
      else ret tt) index = (Val tt, index')
    ∧ ∀ t, entry index' t k
           = match positions_from i t tokens with
             | [] => entry index t k
             | ps => Some (default [] (entry index t k) ++ ps)
             end.
Proof.
  induction tokens as [| tok tokens IH]; intros i index Hk Hne.
  - exists index. done.
  - apply Forall_cons in Hne as [Htok Hne].
    destruct (IH (S i) (add_position tok k i index) Hk Hne)
      as (index' & Hrun & Hentry).
    exists index'. split.
    + simpl. unfold bind at 1. rewrite bool_decide_eq_true_2 by done.
      by rewrite (positional_append_hashable _ _ k).
    + intros t. rewrite Hentry, positions_from_cons, entry_add_position.
      case_decide; [| done]. simpl.
      destruct (positions_from (S i) t tokens); [done |].
      by rewrite <- app_assoc.
Qed.

Lemma index_text_entry s url k index :
  hash_key url = Some k →
  ∃ index',
    _index_text (JStr s) url index = (Val tt, index')
    ∧ ∀ t, entry index' t k
           = match positions_of t (tokenize s) with
             | [] => entry index t k
             | ps => Some (default [] (entry index t k) ++ ps)
             end.
Proof.
  intros Hk. unfold _index_text, enumerate, positions_of. simpl.
  apply index_loop; [done |]. apply Forall_forall.
  intros t Ht%tokenize_canonical. apply Ht.
Qed.

(** [positions_from] lists, in increasing order, the numbers of the places
    where the token stands. *)
Lemma elem_of_positions_from t tokens : ∀ i p,
  p ∈ positions_from i t tokens ↔ (i ≤ p)%nat ∧ tokens !! (p - i)%nat = Some t.
Proof.
  induction tokens as [| tok tokens IH]; intros i p.
  - unfold positions_from. simpl. split; [by intros ?%elem_of_nil |].
    by intros [_ ?].
  - rewrite positions_from_cons. case_decide as Htok.
    + rewrite elem_of_cons, IH. split.
      * intros [-> | [Hle Hp]].
        -- split; [lia |]. replace (i - i)%nat with 0%nat by lia.
           simpl. by subst.
        -- split; [lia |].
           replace (p - i)%nat with (S (p - S i)) by lia. done.
      * intros [Hle Hp]. destruct (decide (p = i)) as [-> | Hpi]; [by left |].
        right. split; [lia |].
        replace (p - i)%nat with (S (p - S i)) in Hp by lia. done.
    + rewrite IH. split.
      * intros [Hle Hp]. split; [lia |].
        replace (p - i)%nat with (S (p - S i)) by lia. done.
      * intros [Hle Hp]. destruct (decide (p = i)) as [-> | Hpi].
        -- replace (i - i)%nat with 0%nat in Hp by lia. simpl in Hp.
           congruence.
        -- split; [lia |].
           replace (p - i)%nat with (S (p - S i)) in Hp by lia. done.
Qed.

Lemma positions_from_sorted t tokens : ∀ i,
  StronglySorted lt (positions_from i t tokens).
Proof.
  induction tokens as [| tok tokens IH]; intros i.
  - constructor.
  - rewrite positions_from_cons. case_decide; [| apply IH].
    constructor; [apply IH |]. apply Forall_forall.
    intros p [Hp _]%elem_of_positions_from. lia.
Qed.

Lemma positions_of_nil t tokens : positions_of t tokens = [] ↔ t ∉ tokens.
Proof.
  split.
  - intros Hnil [p Hp]%list_elem_of_lookup.
    assert (Hin : p ∈ positions_of t tokens).
    { apply elem_of_positions_from. split; [lia |].
      by replace (p - 0)%nat with p by lia. }
    rewrite Hnil in Hin. by apply elem_of_nil in Hin.
  - intros Hnot. destruct (positions_of t tokens) as [| p ps] eqn:E; [done |].
    exfalso. apply Hnot.
    assert (Hin : p ∈ positions_of t tokens) by (rewrite E; by left).
    apply elem_of_positions_from in Hin as [_ Hin].
    by eapply list_elem_of_lookup_2.
Qed.

(** ** Which block touches which table *)

Section Preserves.
Context {St X : Type} (f : St → X).

Lemma preserves_ret {A} (a : A) : preserves f (ret a).
Proof. done. Qed.

Lemma preserves_raise {A} e : preserves f (raise (A := A) e).
Proof. done. Qed.

Lemma preserves_bind {A B} (m : M St A) (k : A → M St B) :
  preserves f m → (∀ a, preserves f (k a)) → preserves f (bind m k).
Proof.
  intros Hm Hk s. unfold bind. specialize (Hm s).
  destruct (m s) as [[a | e] s']; simpl in *; [| done].
  by rewrite Hk.
Qed.

Lemma preserves_if {A} (c : bool) (m1 m2 : M St A) :
  preserves f m1 → preserves f m2 → preserves f (if c then m1 else m2).
Proof. by destruct c. Qed.

Lemma preserves_zoom {T A} (get : St → T) (set : T → St → St) (m : M T A) :
  (∀ t s, f (set t s) = f s) → preserves f (zoom get set m).
Proof. intros Hset s. by rewrite zoom_snd. Qed.

Lemma preserves_py_get v k default : preserves f (py_get v k default).
Proof. by destruct v. Qed.

End Preserves.

Ltac solve_preserves :=
  repeat first
    [ apply preserves_bind; [| intros ?]
    | apply preserves_if
    | apply preserves_py_get
    | apply preserves_ret
    | apply preserves_zoom; reflexivity ].

Lemma process_title_preserves product url :
  preserves description_index (process_title product url)
  ∧ preserves brand_index (process_title product url)
  ∧ preserves origin_index (process_title product url)
  ∧ preserves reviews_index (process_title product url).
Proof. unfold process_title. repeat split; solve_preserves. Qed.

Lemma process_description_preserves product url :
  preserves title_index (process_description product url)
  ∧ preserves brand_index (process_description product url)
  ∧ preserves origin_index (process_description product url)
  ∧ preserves reviews_index (process_description product url).
Proof. unfold process_description. repeat split; solve_preserves. Qed.

Lemma process_features_preserves product url :
  preserves title_index (process_features product url)
  ∧ preserves description_index (process_features product url)
  ∧ preserves reviews_index (process_features product url).
Proof. unfold process_features. repeat split; solve_preserves. Qed.

Lemma process_reviews_preserves product url :
  preserves title_index (process_reviews product url)
  ∧ preserves description_index (process_reviews product url)
  ∧ preserves brand_index (process_reviews product url)
  ∧ preserves origin_index (process_reviews product url).
Proof. unfold process_reviews. repeat split; solve_preserves. Qed.

(** ** The record as a whole *)

(** A record with a truthy url runs the four blocks in order. *)
Lemma process_product_blocks d b :
  truthy (field "url" (JStr "") d) = true →
  _process_product (JDict d) b
  = (let url := field "url" (JStr "") d in
     run process_title (JDict d) url;
     run process_description (JDict d) url;
     run process_features (JDict d) url;
     process_reviews (JDict d) url) b.
Proof.
  intros Hurl. unfold _process_product, py_get, field in *.
  unfold bind at 1, ret at 1. by rewrite Hurl.
Qed.

Lemma process_title_str d url s b :
  field "title" (JStr "") d = JStr s →
  process_title (JDict d) url b
  = if bool_decide (s = "") then (Val tt, b)
    else zoom title_index set_title_index (_index_text (JStr s) url) b.
Proof.
  unfold process_title, py_get, field. unfold bind, ret. intros ->. simpl.
  by case_bool_decide.
Qed.

Lemma process_description_str d url s b :
  field "description" (JStr "") d = JStr s →
  process_description (JDict d) url b
  = if bool_decide (s = "") then (Val tt, b)
    else zoom description_index set_description_index
           (_index_text (JStr s) url) b.
Proof.
  unfold process_description, py_get, field. unfold bind, ret. intros ->.
  simpl. by case_bool_decide.
Qed.

(** A title that is absent, falsy or a string does not make the title block
    raise, for a hashable url. *)
Lemma process_title_returns d url k b :
  hash_key url = Some k →
  (truthy (field "title" (JStr "") d) = true →
   is_str (field "title" (JStr "") d) = true) →
  ∃ b1, process_title (JDict d) url b = (Val tt, b1).
Proof.
  intros Hk Hstr. unfold process_title, py_get. fold (field "title" (JStr "") d).
  unfold bind at 1, ret at 1.
  destruct (truthy (field "title" (JStr "") d)) eqn:Ht; [| by eexists].
  destruct (field "title" (JStr "") d) as [| | | s | | |];
    try (by specialize (Hstr eq_refl)).
  destruct (index_text_entry s url k (title_index b) Hk) as (i' & Hrun & _).
  unfold zoom. rewrite Hrun. by eexists.
Qed.

Lemma entry_after_index_text s url k index t :
  hash_key url = Some k →
  t ∈ tokenize s →
  entry (snd (_index_text (JStr s) url index)) t k
  = Some (default [] (entry index t k) ++ positions_of t (tokenize s)).
Proof.
  intros Hk Ht.
  destruct (index_text_entry s url k index Hk) as (index' & -> & Hentry).
  simpl. rewrite Hentry.
  destruct (positions_of t (tokenize s)) eqn:E; [| done].
  by apply positions_of_nil in E.
Qed.

(** ** Claim C3 *)

(** C3, as stated, fails when the url already has postings for the token:
    ingesting the same document a second time leaves [0, 2, 0, 2] for
    [red] under [u1], not the positions [0, 2] of [red] in the title. *)
Lemma C3_second_ingestion_appends :
  let doc := JDict [("url", JStr "u1"); ("title", JStr "red shoe red hat")] in
  let b1 := snd (_process_product doc init) in
  let b2 := snd (_process_product doc b1) in
  positions_of "red" (tokenize "red shoe red hat") = [0; 2]%nat
  ∧ entry (title_index b1) "red" (KStr "u1") = Some [0; 2]%nat
  ∧ entry (title_index b2) "red" (KStr "u1") = Some [0; 2; 0; 2]%nat
  ∧ entry (title_index b2) "red" (KStr "u1")
    ≠ Some (positions_of "red" (tokenize "red shoe red hat")).
Proof. vm_compute. repeat split; discriminate. Qed.

(** C3 (amended): for a record with a truthy, hashable url and a non-empty
    string title, after ingestion the title index holds, for each token of
    the tokenized title and that url, the positions it held before followed
    by the increasing list of the zero-based positions of the token in the
    tokenized title; so exactly that list when the url had none before.  The
    same holds for the description and the description index, when the
    title is absent, falsy or a string. *)
Theorem C3_positional_postings (d : list (string * json)) (k : key)
    (b : builder) :
  truthy (field "url" (JStr "") d) = true →
  hash_key (field "url" (JStr "") d) = Some k →
  let b' := snd (_process_product (JDict d) b) in
  (∀ s t,
     field "title" (JStr "") d = JStr s → s ≠ "" → t ∈ tokenize s →
     entry (title_index b') t k
     = Some (default [] (entry (title_index b) t k)
             ++ positions_of t (tokenize s)))
  ∧ (∀ s t,
       field "description" (JStr "") d = JStr s → s ≠ "" →
       (truthy (field "title" (JStr "") d) = true →
        is_str (field "title" (JStr "") d) = true) →
       t ∈ tokenize s →
       entry (description_index b') t k
       = Some (default [] (entry (description_index b) t k)
               ++ positions_of t (tokenize s)))
  ∧ (∀ t tokens,
       StronglySorted lt (positions_of t tokens)
       ∧ ∀ p, p ∈ positions_of t tokens ↔ tokens !! p = Some t).
Proof.
  intros Hurl Hk b'. subst b'. rewrite process_product_blocks by done.
  set (url := field "url" (JStr "") d) in *.
  destruct (process_description_preserves (JDict d) url) as (Hd1 & _).
  destruct (process_features_preserves (JDict d) url) as (Hf1 & Hf2 & _).
  destruct (process_reviews_preserves (JDict d) url) as (Hr1 & Hr2 & _).
  destruct (process_title_preserves (JDict d) url) as (Ht2 & _).
  split; [| split].
  - intros s t Hs Hne Ht. cbv zeta.
    rewrite (bind_preserved title_index).
    2:{ intros _. apply preserves_bind; [done | intros _].
        apply preserves_bind; [done | intros _]. done. }
    rewrite process_title_str with (s := s) by done.
    rewrite bool_decide_eq_false_2 by done. rewrite zoom_snd. simpl.
    by apply entry_after_index_text.
  - intros s t Hs Hne Hstr Ht. cbv zeta.
    destruct (process_title_returns d url k b Hk Hstr) as (b1 & Hrun).
    rewrite (bind_val _ _ _ _ _ Hrun).
    rewrite (bind_preserved description_index).
    2:{ intros _. apply preserves_bind; [done | intros _]. done. }
    rewrite process_description_str with (s := s) by done.
    rewrite bool_decide_eq_false_2 by done. rewrite zoom_snd. simpl.
    rewrite entry_after_index_text by done.
    specialize (Ht2 b). rewrite Hrun in Ht2. simpl in Ht2. by rewrite Ht2.
  - intros t tokens. split; [apply positions_from_sorted |].
    intros p. unfold positions_of. rewrite elem_of_positions_from.
    replace (p - 0)%nat with p by lia. split; [by intros [] |].
    intros ?. split; [lia | done].
Qed.

(** C3 at the record of the specification: [red] gets [0, 2] under [u1],
    and [hat], after the stopword-free title is numbered, gets [3]. *)
Lemma C3_positional_postings_witness :
  let d := [("url", JStr "u1"); ("title", JStr "red shoe red hat");
            ("description", JStr "A hat and the red shoe")] in
  let b' := snd (_process_product (JDict d) init) in
  entry (title_index b') "red" (KStr "u1") = Some [0; 2]%nat
  ∧ entry (description_index b') "shoe" (KStr "u1") = Some [2]%nat.
Proof.
  intros d b'.
  destruct (C3_positional_postings d (KStr "u1") init eq_refl eq_refl)
    as (Htitle & Hdescr & _).
  split.
  - pose proof (Htitle "red shoe red hat" "red" eq_refl ltac:(discriminate)
                  ltac:(apply (bool_decide_unpack _); by vm_compute)) as H.
    vm_compute in H. vm_compute. exact H.
  - pose proof (Hdescr "A hat and the red shoe" "shoe" eq_refl
                  ltac:(discriminate) ltac:(intros _; reflexivity)
                  ltac:(apply (bool_decide_unpack _); by vm_compute)) as H.
    vm_compute in H. vm_compute. exact H.
Defined.

Lemma process_product_falsy_url d b :
  truthy (field "url" (JStr "") d) = false →
  _process_product (JDict d) b = (Val tt, b).
Proof.
  intros H. unfold _process_product, py_get, bind, ret.
  fold (field "url" (JStr "") d). by rewrite H.
Qed.

(** ** Claim C7 *)

(** C7: a record whose [url] is absent or falsy (the empty string, and also
    [null], [0], [false], an empty list or dict) returns without raising and
    leaves the builder, hence each of the five tables, as it was. *)
Theorem C7_missing_url_is_skipped (d : list (string * json)) (b : builder) :
  (dict_lookup "url" d = None
   ∨ ∃ v, dict_lookup "url" d = Some v ∧ truthy v = false) →
  _process_product (JDict d) b = (Val tt, b).
Proof.
  intros H. unfold _process_product, py_get, bind, ret.
  destruct H as [-> | (v & -> & ->)]; done.
Qed.

Lemma C7_missing_url_is_skipped_witness :
  _process_product
    (JDict [("title", JStr "red shoe");
            ("product_reviews", JList [JDict [("rating", JInt 5)]])]) init
  = (Val tt, init)
  ∧ _process_product
      (JDict [("url", JStr ""); ("title", JStr "red shoe")]) init
    = (Val tt, init).
Proof.
  split.
  - apply C7_missing_url_is_skipped. left. reflexivity.
  - apply C7_missing_url_is_skipped. right. exists (JStr "").
    split; reflexivity.
Defined.

(** ** Categorical indexes *)

Lemma categorical_add_idem token url index :
  categorical_add token url (snd (categorical_add token url index))
  = categorical_add token url index.
Proof.
  unfold categorical_add. destruct (hash_key url) as [k |]; simpl.
  - rewrite lookup_insert_eq, insert_insert_eq. simpl.
    do 2 f_equal. by rewrite (assoc_L (∪)), (idemp_L (∪)).
  - by rewrite lookup_insert_eq, insert_insert_eq.
Qed.

Lemma set_brand_index_twice i j b :
  set_brand_index i (set_brand_index j b) = set_brand_index i b.
Proof. done. Qed.

Lemma set_origin_index_twice i j b :
  set_origin_index i (set_origin_index j b) = set_origin_index i b.
Proof. done. Qed.

Lemma export_categorical_nodup index t l :
  export_categorical index !! t = Some l → NoDup l.
Proof.
  unfold export_categorical. rewrite lookup_fmap.
  destruct (index !! t); simpl; [| done]. intros [= <-]. apply NoDup_elements.
Qed.

(** ** Claim C9 *)

(** C9: adding a pair (token, url) to the brand index, or to the origin
    index, once more, any number of times, leaves the builder as the first
    addition left it; and the list of documents that the export writes for a
    token of a categorical index has no repetition. *)
Theorem C9_categorical_add_idempotent (token : string) (url : json)
    (b : builder) (n : nat) :
  let add_brand s :=
    snd (zoom brand_index set_brand_index (categorical_add token url) s) in
  let add_origin s :=
    snd (zoom origin_index set_origin_index (categorical_add token url) s) in
  Nat.iter n add_brand (add_brand b) = add_brand b
  ∧ Nat.iter n add_origin (add_origin b) = add_origin b
  ∧ (∀ t l, export_categorical (brand_index b) !! t = Some l → NoDup l)
  ∧ (∀ t l, export_categorical (origin_index b) !! t = Some l → NoDup l).
Proof.
  intros add_brand add_origin. split; [| split; [| split]].
  - induction n as [| n IH]; [done |]. simpl. rewrite IH.
    unfold add_brand. rewrite !zoom_snd. simpl.
    by rewrite categorical_add_idem.
  - induction n as [| n IH]; [done |]. simpl. rewrite IH.
    unfold add_origin. rewrite !zoom_snd. simpl.
    by rewrite categorical_add_idem.
  - intros t l. apply export_categorical_nodup.
  - intros t l. apply export_categorical_nodup.
Qed.

(** ** The [Reviews] block *)

Lemma bind_inv_val {St A B} (m : M St A) (k : A → M St B) s b s' :
  bind m k s = (Val b, s') →
  ∃ a s1, m s = (Val a, s1) ∧ k a s1 = (Val b, s').
Proof.
  unfold bind. destruct (m s) as [[a | e] s1]; [eauto | discriminate].
Qed.

Lemma bind_inv_exc {St A B} (m : M St A) (k : A → M St B) s e s' :
  bind m k s = (Exc e, s') →
  m s = (Exc e, s') ∨ ∃ a s1, m s = (Val a, s1) ∧ k a s1 = (Exc e, s').
Proof.
  unfold bind. destruct (m s) as [[a | e1] s1]; intros H.
  - right. by exists a, s1.
  - left. congruence.
Qed.

Section Reviews.
Context {St : Type}.

Lemma ratings_spec items (s : St) :
  match map_m (λ review, py_get review "rating" (JInt 0)) items s with
  | (Val ratings, s') =>
      s' = s ∧ ∃ rds, items = JDict <$> rds
                      ∧ ratings = field "rating" (JInt 0) <$> rds
  | (Exc _, s') => s' = s
  end.
Proof.
  induction items as [| review items IH]; simpl.
  - split; [done |]. by exists [].
  - destruct review as [| | | | | rd |]; try done.
    unfold bind at 1. simpl. unfold bind at 1.
    destruct (map_m _ items s) as [[ratings | e] s1]; [| done].
    destruct IH as (-> & rds & -> & ->). simpl. split; [done |].
    by exists (rd :: rds).
Qed.

(** The numeric operations read no state and leave it as it is: what they
    return is what they return when run alone. *)
Lemma value_of_bind {A B} (m : M unit A) (k : A → M unit B) :
  value_of (bind m k)
  = match value_of m with Val a => value_of (k a) | Exc e => Exc e end.
Proof. unfold value_of, bind. by destruct (m tt) as [[a | e] []]. Qed.

Lemma bind_run {A B} (m : M St A) (mu : M unit A)
    (k : A → M St B) (ku : A → M unit B) (s : St) :
  m s = (value_of mu, s) →
  (∀ a, k a s = (value_of (ku a), s)) →
  bind m k s = (value_of (bind mu ku), s).
Proof.
  intros Hm Hk. rewrite value_of_bind. unfold bind at 1. rewrite Hm.
  destruct (value_of mu); [apply Hk | done].
Qed.

Lemma finite_or_overflow_run f (s : St) :
  F64.finite_or_overflow f s = (value_of (F64.finite_or_overflow f), s).
Proof. by destruct f. Qed.

Lemma to_float_run z (s : St) :
  F64.to_float z s = (value_of (F64.to_float z), s).
Proof. apply finite_or_overflow_run. Qed.

Lemma py_add_run acc r (s : St) :
  py_add acc r s = (value_of (py_add acc r), s).
Proof.
  destruct acc as [a | g], r as [| b | z | | | | f id]; try done;
    unfold py_add; (apply bind_run; [apply to_float_run | done]).
Qed.

Lemma py_sum_from_run l : ∀ acc (s : St),
  py_sum_from acc l s = (value_of (py_sum_from acc l), s).
Proof.
  induction l as [| r l IH]; intros acc s; [done |].
  cbn [py_sum_from]. apply bind_run; [apply py_add_run | intros a; apply IH].
Qed.

Lemma py_sum_run l (s : St) : py_sum l s = (value_of (py_sum l), s).
Proof. apply py_sum_from_run. Qed.

Lemma py_div_run total n (s : St) :
  py_div total n s = (value_of (py_div total n), s).
Proof.
  destruct total as [a | g]; unfold py_div.
  - unfold F64.truediv. destruct (n =? 0); [done |].
    apply finite_or_overflow_run.
  - apply bind_run; [apply to_float_run |]. intros fn. by destruct (n =? 0).
Qed.

Lemma finite_or_overflow_spec f (s : St) :
  match F64.finite_or_overflow f s with
  | (Val r, s') => s' = s ∧ r = f
  | (Exc _, s') => s' = s
  end.
Proof. by destruct f. Qed.

Lemma truediv_spec a b (s : St) :
  b ≠ 0 →
  match F64.truediv a b s with
  | (Val q, s') => s' = s ∧ q = F64.quotient a b
  | (Exc _, s') => s' = s
  end.
Proof.
  intros Hb. unfold F64.truediv.
  destruct (Z.eqb_spec b 0); [done |]. apply finite_or_overflow_spec.
Qed.

Lemma round2_spec x (s : St) :
  match F64.round2 x s with
  | (Val r, s') => s' = s ∧ r = F64.round2_val x
  | (Exc _, s') => s' = s
  end.
Proof. destruct x; try done. apply finite_or_overflow_spec. Qed.

End Reviews.

Lemma reviews_store_spec url stats table :
  match reviews_store url stats table with
  | (Val _, table') =>
      ∃ k, hash_key url = Some k ∧ table' = <[k := stats]> table
  | (Exc _, table') => table' = table
  end.
Proof. unfold reviews_store. destruct (hash_key url); eauto. Qed.

Lemma remove_dups_not_nil {A} `{EqDecision A} (l : list A) :
  l ≠ [] → remove_dups l ≠ [].
Proof.
  destruct l as [| x l]; [done |]. intros _ Hnil.
  assert (Hx : x ∈ remove_dups (x :: l)) by (apply elem_of_remove_dups; by left).
  rewrite Hnil in Hx. by apply elem_of_nil in Hx.
Qed.

(** The block stores one record, fit for the reviews, under the url, or it
    raises and leaves the table as it was. *)
Lemma index_reviews_spec reviews url table :
  match index_reviews reviews url table with
  | (Val _, table') =>
      ∃ k stats, hash_key url = Some k
                 ∧ table' = <[k := stats]> table
                 ∧ stats_spec reviews stats
  | (Exc _, table') => table' = table
  end.
Proof.
  unfold index_reviews, stats_spec.
  destruct (truthy reviews) eqn:Htruthy.
  2:{ pose proof (reviews_store_spec url no_reviews table) as H.
      unfold no_reviews in *.
      destruct (reviews_store _ _ table) as [[[] | e] t']; [| done].
      destruct H as (k & ? & ?). by exists k, no_reviews. }
  unfold bind at 1.
  destruct (py_iter reviews table) as [[items | e] t0] eqn:Hiter;
    unfold py_iter, raise, ret in Hiter.
  2:{ destruct reviews; congruence. }
  assert (t0 = table) as -> by (destruct reviews; congruence).
  unfold bind at 1. pose proof (ratings_spec items table) as Hr.
  destruct (map_m _ items table) as [[ratings | e] t1]; [| done].
  destruct Hr as (-> & rds & -> & ->).
  assert (reviews = JList (JDict <$> rds) ∧ rds ≠ []) as [-> Hne].
  { destruct reviews as [| | | s | l | dd |]; simpl in Hiter; try discriminate.
    - destruct s as [| c s]; [done |]. destruct rds; simpl in Hiter; discriminate.
    - injection Hiter as ->. split; [done |]. by destruct rds.
    - injection Hiter as Hkeys. exfalso.
      assert (Hd : dd.*1 ≠ []) by (by destruct dd).
      apply remove_dups_not_nil in Hd.
      destruct (remove_dups dd.*1); [done |].
      destruct rds; simpl in Hkeys; discriminate. }
  unfold bind at 1. simpl py_len. unfold ret at 1.
  rewrite bool_decide_eq_true_2 by (by destruct rds).
  unfold bind at 1. unfold bind at 1.
  rewrite (py_sum_run (field "rating" (JInt 0) <$> rds) table).
  destruct (value_of (py_sum _)) as [total | e] eqn:Hsum; [| done].
  unfold bind at 1. rewrite py_div_run.
  destruct (value_of (py_div _ _)) as [q | e] eqn:Hq; [| done].
  unfold bind at 1.
  pose proof (round2_spec q table) as Hrd.
  destruct (F64.round2 _ table) as [[r | e] t4]; [| done].
  destruct Hrd as (-> & ->). unfold ret at 1.
  match goal with |- context [reviews_store url ?st table] =>
    pose proof (reviews_store_spec url st table) as Hst;
    destruct (reviews_store url st table) as [[[] | e] t'] end; [| done].
  destruct Hst as (k & Hk & ->). eexists k, _. split; [done |].
  split; [done |]. exists rds, total, q. split; [done |].
  split; [exact Hsum |]. rewrite length_fmap in Hq. split; [exact Hq |].
  unfold stats_of, ratings_of. by rewrite !length_fmap.
Qed.

(** What a record does to the review table: nothing when it is skipped or
    raises, one record stored under its url when it returns. *)
Lemma process_product_reviews product b :
  match _process_product product b with
  | (Val _, b') =>
      (∃ d, product = JDict d
            ∧ truthy (field "url" (JStr "") d) = false ∧ b' = b)
      ∨ (∃ d k stats,
           product = JDict d
           ∧ truthy (field "url" (JStr "") d) = true
           ∧ hash_key (field "url" (JStr "") d) = Some k
           ∧ reviews_index b' = <[k := stats]> (reviews_index b)
           ∧ stats_spec (field "product_reviews" (JList []) d) stats)
  | (Exc _, b') => reviews_index b' = reviews_index b
  end.
Proof.
  destruct product as [| | | | | d |]; try done.
  destruct (truthy (field "url" (JStr "") d)) eqn:Hurl.
  2:{ rewrite process_product_falsy_url by done. left. by exists d. }
  rewrite process_product_blocks by done. cbv zeta.
  set (url := field "url" (JStr "") d) in *.
  destruct (process_title_preserves (JDict d) url) as (_ & _ & _ & Ht).
  destruct (process_description_preserves (JDict d) url) as (_ & _ & _ & Hd).
  destruct (process_features_preserves (JDict d) url) as (_ & _ & Hf).
  unfold bind at 1. specialize (Ht b).
  destruct (process_title (JDict d) url b) as [[[] | e] b1]; [| done].
  unfold bind at 1. specialize (Hd b1).
  destruct (process_description (JDict d) url b1) as [[[] | e] b2];
    [| simpl in *; congruence].
  unfold bind at 1. specialize (Hf b2).
  destruct (process_features (JDict d) url b2) as [[[] | e] b3];
    [| simpl in *; congruence].
  simpl in Ht, Hd, Hf.
  unfold process_reviews, py_get. unfold bind at 1, ret at 1. unfold zoom.
  fold (field "product_reviews" (JList []) d).
  pose proof (index_reviews_spec (field "product_reviews" (JList []) d) url
                (reviews_index b3)) as Hr.
  destruct (index_reviews _ url (reviews_index b3)) as [[[] | e] table'].
  - destruct Hr as (k & stats & Hk & -> & Hspec). right.
    exists d, k, stats. simpl. repeat split; try done. congruence.
  - simpl. congruence.
Qed.

(** ** Rounding to two decimals *)



(** ** Sums and quotients of integer ratings *)




(** ** Claim C4 *)




(** ** The pass over the file *)

Lemma process_lines_cons_decoded n product rest b :
  process_lines n (Decoded product :: rest) b
  = match _process_product product b with
    | (Val _, b1) => process_lines (S n) rest b1
    | (Exc e, b1) =>
        let '(b', log) := process_lines (S n) rest b1 in
        (b', ProcessingError n e :: log)
    end.
Proof. done. Qed.

(** The messages of the lines from [n] on are about those lines. *)
Lemma process_lines_log_bound lines : ∀ n b m,
  m ∈ (process_lines n lines b).2 → (n ≤ message_line m)%nat.
Proof.
  induction lines as [| [product | | e0] rest IH]; intros n b m; simpl.
  - by intros ?%elem_of_nil.
  - destruct (_process_product product b) as [[[] | e] b1].
    + intros Hm%IH. lia.
    + specialize (IH (S n) b1 m).
      destruct (process_lines (S n) rest b1) as [b' log]. simpl in *.
      intros [-> | Hm]%elem_of_cons; [simpl; lia |]. apply IH in Hm. lia.
  - specialize (IH (S n) b m).
    destruct (process_lines (S n) rest b) as [b' log]. simpl in *.
    intros [-> | Hm]%elem_of_cons; [simpl; lia |]. apply IH in Hm. lia.
  - specialize (IH (S n) b m).
    destruct (process_lines (S n) rest b) as [b' log]. simpl in *.
    intros [-> | Hm]%elem_of_cons; [simpl; lia |]. apply IH in Hm. lia.
Qed.

(** The review table after the lines from [n] on: what was there, and one
    entry per record with a truthy url whose line printed no processing
    error. *)
Lemma process_lines_reviews lines : ∀ n b k,
  k ∈ dom (reviews_index (process_lines n lines b).1) ↔
  k ∈ dom (reviews_index b)
  ∨ ∃ i d,
      lines !! i = Some (Decoded (JDict d))
      ∧ truthy (field "url" (JStr "") d) = true
      ∧ hash_key (field "url" (JStr "") d) = Some k
      ∧ ∀ e, ProcessingError (n + i) e ∉ (process_lines n lines b).2.
Proof.
  induction lines as [| l rest IH]; intros n b k.
  - simpl. split; [by left |]. intros [? | (i & d & Hi & _)]; [done |].
    by rewrite lookup_nil in Hi.
  - assert (Hshift : ∀ (log : list message) (P : nat → Prop),
      (∃ i d, (l :: rest) !! i = Some (Decoded (JDict d))
              ∧ truthy (field "url" (JStr "") d) = true
              ∧ hash_key (field "url" (JStr "") d) = Some k
              ∧ P i)
      ↔ (∃ d, l = Decoded (JDict d)
              ∧ truthy (field "url" (JStr "") d) = true
              ∧ hash_key (field "url" (JStr "") d) = Some k
              ∧ P 0%nat)
        ∨ (∃ i d, rest !! i = Some (Decoded (JDict d))
              ∧ truthy (field "url" (JStr "") d) = true
              ∧ hash_key (field "url" (JStr "") d) = Some k
              ∧ P (S i))).
    { intros _ P. split.
      - intros ([| i] & d & Hi & H); [left | right].
        + simpl in Hi. injection Hi as ->. by exists d.
        + by exists i, d.
      - intros [(d & -> & H) | (i & d & Hi & H)].
        + by exists 0%nat, d.
        + by exists (S i), d. }
    rewrite (Hshift [] _). clear Hshift.
    destruct l as [product | | e0].
    + rewrite process_lines_cons_decoded.
      pose proof (process_product_reviews product b) as Hp.
      pose proof (process_lines_log_bound rest (S n) (snd (_process_product product b))) as Hbound.
      destruct (_process_product product b) as [[[] | e] b1]; simpl in Hbound.
      * rewrite IH.
        assert (Hfresh : ∀ e, ProcessingError (n + 0) e ∉ (process_lines (S n) rest b1).2).
        { intros e Hin%Hbound. simpl in Hin. lia. }
        destruct Hp as [(d & -> & Hurl & ->) | (d & k0 & stats & -> & Hurl & Hk0 & Hb1 & _)].
        -- split.
           ++ intros [? | (i & d' & ? & ? & ? & Hlog)]; [by left |].
              right. right. exists i, d'. repeat split; try done.
              rewrite Nat.add_succ_r. exact Hlog.
           ++ intros [? | [(d' & [= <-] & ? & _) | (i & d' & ? & ? & ? & Hlog)]];
                [by left | congruence |].
              right. exists i, d'. repeat split; try done.
              rewrite Nat.add_succ_r in Hlog. exact Hlog.
        -- rewrite Hb1, dom_insert_L, elem_of_union, elem_of_singleton. split.
           ++ intros [[-> | ?] | (i & d' & ? & ? & ? & Hlog)]; [| by left |].
              ** right. left. by exists d.
              ** right. right. exists i, d'. repeat split; try done.
                 rewrite Nat.add_succ_r. exact Hlog.
           ++ intros [? | [(d' & [= <-] & ? & ? & _) | (i & d' & ? & ? & ? & Hlog)]].
              ** left. by right.
              ** left. left. congruence.
              ** right. exists i, d'. repeat split; try done.
                 rewrite Nat.add_succ_r in Hlog. exact Hlog.
      * specialize (IH (S n) b1 k).
        destruct (process_lines (S n) rest b1) as [b' log]. simpl in *.
        rewrite IH, Hp. split.
        -- intros [? | (i & d' & ? & ? & ? & Hlog)]; [by left |].
           right. right. exists i, d'. repeat split; try done.
           intros e' [[= ? _] | Hin]%elem_of_cons; [lia |].
           apply (Hlog e'). rewrite Nat.add_succ_r in Hin. exact Hin.
        -- intros [? | [(d' & _ & _ & _ & Hlog) | (i & d' & ? & ? & ? & Hlog)]];
             [by left | |].
           ++ exfalso. apply (Hlog e). replace (n + 0)%nat with n by lia. by left.
           ++ right. exists i, d'. repeat split; try done.
              intros e' Hin. apply (Hlog e'). right.
              rewrite Nat.add_succ_r. exact Hin.
    + simpl. specialize (IH (S n) b k).
      destruct (process_lines (S n) rest b) as [b' log]. simpl in *.
      rewrite IH. split.
      * intros [? | (i & d' & ? & ? & ? & Hlog)]; [by left |].
        right. right. exists i, d'. repeat split; try done.
        intros e' [[=] | Hin]%elem_of_cons.
        apply (Hlog e'). rewrite Nat.add_succ_r in Hin. exact Hin.
      * intros [? | [(d' & [=] & _) | (i & d' & ? & ? & ? & Hlog)]]; [by left |].
        right. exists i, d'. repeat split; try done.
        intros e' Hin. apply (Hlog e'). right.
        rewrite Nat.add_succ_r. exact Hin.
    + simpl. specialize (IH (S n) b k).
      destruct (process_lines (S n) rest b) as [b' log]. simpl in *.
      rewrite IH. split.
      * intros [? | (i & d' & ? & ? & ? & Hlog)]; [by left |].
        right. right. exists i, d'. repeat split; try done.
        intros e' [[= ? _] | Hin]%elem_of_cons; [lia |].
        apply (Hlog e'). rewrite Nat.add_succ_r in Hin. exact Hin.
      * intros [? | [(d' & [=] & _) | (i & d' & ? & ? & ? & Hlog)]]; [by left |].
        right. exists i, d'. repeat split; try done.
        intros e' Hin. apply (Hlog e'). right.
        rewrite Nat.add_succ_r. exact Hin.
Qed.

(** ** Claim C6 *)

(** C6: after a pass over the file, started on the empty tables, a key is
    in the review table exactly when it is the url of a record with a truthy
    url that was processed (its line printed no processing error), whatever
    its reviews; being a map, the table has one entry per key.  In the
    end-to-end example the record without reviews gets the all-zero
    record. *)
Theorem C6_review_table_entries (lines : list line) :
  (∀ k,
     k ∈ dom (reviews_index (process_jsonl lines init).1) ↔
     ∃ i d,
       lines !! i = Some (Decoded (JDict d))
       ∧ truthy (field "url" (JStr "") d) = true
       ∧ hash_key (field "url" (JStr "") d) = Some k
       ∧ ∀ e, ProcessingError (S i) e ∉ (process_jsonl lines init).2)
  ∧ NoDup (map_to_list (reviews_index (process_jsonl lines init).1)).*1
  ∧ reviews_index
      (process_jsonl
         [Decoded (JDict [("url", JStr "u1"); ("title", JStr "Blue Widget");
                          ("product_features", JDict [("brand", JStr "Acme")]);
                          ("product_reviews", JList [JDict [("rating", JInt 5)]])]);
          Decoded (JDict [("url", JStr "u2"); ("title", JStr "Red Widget");
                          ("product_features", JDict [("brand", JStr "Acme")])])]
         init).1 !! KStr "u2"
    = Some no_reviews.
Proof.
  split; [| split].
  - intros k. unfold process_jsonl. rewrite process_lines_reviews.
    simpl. rewrite dom_empty_L. split.
    + intros [?%not_elem_of_empty | H]; [done | exact H].
    + intros H. right. exact H.
  - apply NoDup_fst_map_to_list.
  - by vm_compute.
Qed.

(** ** Index keys *)

Lemma invariant_ret {St A} (I : St → Prop) (a : A) : invariant I (ret a).
Proof. by intros ?. Qed.

Lemma invariant_raise {St A} (I : St → Prop) e :
  invariant I (raise (A := A) e).
Proof. by intros ?. Qed.

Lemma invariant_bind {St A B} (I : St → Prop) (m : M St A) (k : A → M St B) :
  invariant I m →
  (∀ a s s', m s = (Val a, s') → invariant I (k a)) →
  invariant I (bind m k).
Proof.
  intros Hm Hk s Hs. unfold bind. specialize (Hm s Hs).
  destruct (m s) as [[a | e] s'] eqn:E; [| done].
  by eapply Hk.
Qed.

Lemma invariant_for_each {St A} (I : St → Prop) (l : list A)
    (body : A → M St unit) :
  (∀ x, x ∈ l → invariant I (body x)) → invariant I (for_each l body).
Proof.
  induction l as [| x l IH]; intros Hbody; simpl.
  - apply invariant_ret.
  - apply invariant_bind; [apply Hbody; by left |].
    intros _ _ _ _. apply IH. intros y Hy. apply Hbody. by right.
Qed.

Lemma invariant_zoom {St T A} (I : St → Prop) (J : T → Prop)
    (get : St → T) (set : T → St → St) (m : M T A) :
  (∀ s, I s → J (get s)) →
  (∀ t s, I s → J t → I (set t s)) →
  invariant J m → invariant I (zoom get set m).
Proof.
  intros Hget Hset Hm s Hs. rewrite zoom_snd. apply Hset; [done |].
  apply Hm. by apply Hget.
Qed.

Lemma keys_ok_insert {V} (index : gmap string V) t v :
  token_ok t → keys_ok index → keys_ok (<[t := v]> index).
Proof.
  intros Ht Hindex t' Hsome. destruct (decide (t = t')) as [<- | Hne]; [done |].
  rewrite lookup_insert_ne in Hsome by done. by apply Hindex.
Qed.

Lemma positional_append_keys token url position :
  token_ok token →
  invariant keys_ok (positional_append token url position).
Proof.
  intros Ht index Hindex. unfold positional_append.
  destruct (hash_key url); simpl; by apply keys_ok_insert.
Qed.

Lemma categorical_add_keys token url :
  token_ok token → invariant keys_ok (categorical_add token url).
Proof.
  intros Ht index Hindex. unfold categorical_add.
  destruct (hash_key url); simpl; by apply keys_ok_insert.
Qed.

Lemma elem_of_enumerate_from {A} (l : list A) : ∀ i p x,
  (p, x) ∈ enumerate_from i l → x ∈ l.
Proof.
  induction l as [| y l IH]; intros i p x; simpl.
  - by intros ?%elem_of_nil.
  - intros [[= _ ->] | H]%elem_of_cons; [by left |]. right. by eapply IH.
Qed.

Lemma index_text_keys text url : invariant keys_ok (_index_text text url).
Proof.
  unfold _index_text. apply invariant_bind.
  - destruct text; by intros ?.
  - intros tokens s s' Htok.
    destruct text as [| | | str | | |]; try discriminate.
    injection Htok as <- _.
    apply invariant_for_each. intros [p t] Hin%elem_of_enumerate_from.
    case_bool_decide; [| apply invariant_ret].
    apply positional_append_keys. by apply tokenize_canonical in Hin.
Qed.

Lemma index_feature_keys name features url :
  invariant keys_ok (index_feature name features url).
Proof.
  unfold index_feature. apply invariant_bind.
  { destruct features; by intros ?. }
  intros [] _ _ _; [| apply invariant_ret].
  apply invariant_bind.
  { destruct features as [| | | | | d |]; try by intros ?.
    simpl. destruct (dict_lookup name d); by intros ?. }
  intros value _ _ _.
  destruct (is_str value && truthy value); [| apply invariant_ret].
  apply invariant_bind.
  { destruct value; by intros ?. }
  intros tokens s s' Htok.
  destruct value as [| | | str | | |]; try discriminate.
  injection Htok as <- _.
  apply invariant_for_each. intros t Hin.
  apply categorical_add_keys. by apply tokenize_canonical in Hin.
Qed.

Lemma invariant_py_get {St} (I : St → Prop) v k default :
  invariant I (py_get v k default).
Proof. destruct v; by intros ?. Qed.

Lemma process_product_keys product :
  invariant builder_keys_ok (_process_product product).
Proof.
  unfold _process_product. apply invariant_bind; [apply invariant_py_get |].
  intros url _ _ _. destruct (negb (truthy url)); [apply invariant_ret |].
  apply invariant_bind.
  { unfold process_title. apply invariant_bind; [apply invariant_py_get |].
    intros title _ _ _. destruct (truthy title); [| apply invariant_ret].
    apply (invariant_zoom _ keys_ok); [| | apply index_text_keys].
    - by intros s (? & ? & ? & ?).
    - by intros t s (? & ? & ? & ?) ?. }
  intros _ _ _ _. apply invariant_bind.
  { unfold process_description.
    apply invariant_bind; [apply invariant_py_get |].
    intros description _ _ _.
    destruct (truthy description); [| apply invariant_ret].
    apply (invariant_zoom _ keys_ok); [| | apply index_text_keys].
    - by intros s (? & ? & ? & ?).
    - by intros t s (? & ? & ? & ?) ?. }
  intros _ _ _ _. apply invariant_bind.
  { unfold process_features. apply invariant_bind; [apply invariant_py_get |].
    intros features _ _ _. apply invariant_bind.
    - apply (invariant_zoom _ keys_ok); [| | apply index_feature_keys].
      + by intros s (? & ? & ? & ?).
      + by intros t s (? & ? & ? & ?) ?.
    - intros _ _ _ _.
      apply (invariant_zoom _ keys_ok); [| | apply index_feature_keys].
      + by intros s (? & ? & ? & ?).
      + by intros t s (? & ? & ? & ?) ?. }
  intros _ _ _ _. unfold process_reviews.
  apply invariant_bind; [apply invariant_py_get |].
  intros reviews _ _ _.
  apply (invariant_zoom _ (λ _, True)); [done | | done].
  by intros t s (? & ? & ? & ?) _.
Qed.

Lemma process_lines_keys lines : ∀ n b,
  builder_keys_ok b → builder_keys_ok (process_lines n lines b).1.
Proof.
  induction lines as [| [product | | e0] rest IH]; intros n b Hb; simpl.
  - done.
  - pose proof (process_product_keys product b Hb) as H1.
    destruct (_process_product product b) as [[[] | e] b1]; simpl in H1.
    + by apply IH.
    + specialize (IH (S n) b1 H1).
      by destruct (process_lines (S n) rest b1).
  - specialize (IH (S n) b Hb). by destruct (process_lines (S n) rest b).
  - specialize (IH (S n) b Hb). by destruct (process_lines (S n) rest b).
Qed.

Lemma init_keys_ok : builder_keys_ok init.
Proof.
  unfold builder_keys_ok, keys_ok. simpl.
  split; [| split; [| split]]; intros t [x Hx]; by rewrite lookup_empty in Hx.
Qed.

(** ** Claim C8 *)

(** C8: a canonical token (non-empty, only [a-z0-9]) tokenizes to itself,
    or to nothing when it is a stopword; and after any pass over a file,
    each key of the title, description, brand and origin indexes is
    non-empty and tokenizes to itself. *)
Theorem C8_tokens_are_fixed_points :
  (∀ t, canonical t →
        tokenize t = if decide (t ∈ STOPWORDS) then [] else [t])
  ∧ (∀ lines t,
       let b := (process_jsonl lines init).1 in
       is_Some (title_index b !! t) ∨ is_Some (description_index b !! t)
       ∨ is_Some (brand_index b !! t) ∨ is_Some (origin_index b !! t) →
       t ≠ "" ∧ tokenize t = [t]).
Proof.
  split; [apply tokenize_of_canonical |].
  intros lines t b Hkey.
  assert (Hok : token_ok t).
  { destruct (process_lines_keys lines 1 init init_keys_ok)
      as (H1 & H2 & H3 & H4).
    destruct Hkey as [? | [? | [? | ?]]]; eauto. }
  destruct Hok as [Hcan Hstop]. split; [apply Hcan |].
  rewrite tokenize_of_canonical by done. by case_decide.
Qed.

Lemma C8_tokens_are_fixed_points_witness :
  tokenize "shoe" = ["shoe"] ∧ tokenize "the" = []
  ∧ tokenize "widget" = ["widget"].
Proof.
  destruct C8_tokens_are_fixed_points as [Hcanon Hkeys].
  split; [| split].
  - exact (Hcanon "shoe" ltac:(by split)).
  - exact (Hcanon "the" ltac:(by split)).
  - refine (proj2 (Hkeys
      [Decoded (JDict [("url", JStr "u1"); ("title", JStr "Blue Widget")])]
      "widget" _)).
    left. apply (bool_decide_unpack _). by vm_compute.
Defined.

(** ** Records that raise *)

Lemma py_tokenize_not_str {St} (v : json) (s : St) :
  is_str v = false → py_tokenize v s = (Exc AttributeError, s).
Proof. by destruct v. Qed.

Lemma index_text_not_str text url index :
  is_str text = false →
  _index_text text url index = (Exc AttributeError, index).
Proof.
  intros H. unfold _index_text.
  by rewrite (bind_exc _ _ _ _ _ (py_tokenize_not_str text index H)).
Qed.

Lemma set_title_index_same b : set_title_index (title_index b) b = b.
Proof. by destruct b. Qed.

Lemma set_description_index_same b :
  set_description_index (description_index b) b = b.
Proof. by destruct b. Qed.

Lemma set_reviews_index_same b : set_reviews_index (reviews_index b) b = b.
Proof. by destruct b. Qed.

(** A truthy title that is not a string raises before any table is
    touched. *)
Lemma process_title_not_str d url b :
  truthy (field "title" (JStr "") d) = true →
  is_str (field "title" (JStr "") d) = false →
  process_title (JDict d) url b = (Exc AttributeError, b).
Proof.
  intros Ht Hs. unfold process_title, py_get.
  fold (field "title" (JStr "") d). unfold bind at 1, ret at 1.
  rewrite Ht. unfold zoom. rewrite index_text_not_str by done.
  by rewrite set_title_index_same.
Qed.

Lemma process_description_not_str d url b :
  truthy (field "description" (JStr "") d) = true →
  is_str (field "description" (JStr "") d) = false →
  process_description (JDict d) url b = (Exc AttributeError, b).
Proof.
  intros Ht Hs. unfold process_description, py_get.
  fold (field "description" (JStr "") d). unfold bind at 1, ret at 1.
  rewrite Ht. unfold zoom. rewrite index_text_not_str by done.
  by rewrite set_description_index_same.
Qed.

Lemma process_reviews_exc d url b e b1 :
  process_reviews (JDict d) url b = (Exc e, b1) → b1 = b.
Proof.
  unfold process_reviews, py_get. unfold bind at 1, ret at 1. unfold zoom.
  pose proof (index_reviews_spec
    (match dict_lookup "product_reviews" d with
     | Some x => x | None => JList [] end) url (reviews_index b)) as H.
  destruct (index_reviews _ url (reviews_index b)) as [[[] | e'] table'];
    [discriminate |].
  intros [= _ <-]. subst table'. apply set_reviews_index_same.
Qed.

(** When a record raises, the failing block is the first of the four that
    raises: the blocks before it returned and their updates stand; the
    blocks after it did not run. *)
Lemma process_product_exc product b e b1 :
  _process_product product b = (Exc e, b1) →
  ((∀ d, product ≠ JDict d) ∧ b1 = b)
  ∨ ∃ d, product = JDict d
      ∧ truthy (field "url" (JStr "") d) = true
      ∧ let url := field "url" (JStr "") d in
        (process_title product url b = (Exc e, b1)
         ∧ description_index b1 = description_index b
         ∧ brand_index b1 = brand_index b
         ∧ origin_index b1 = origin_index b
         ∧ reviews_index b1 = reviews_index b)
        ∨ (∃ bt,
             process_title product url b = (Val tt, bt)
             ∧ process_description product url bt = (Exc e, b1)
             ∧ title_index b1 = title_index bt
             ∧ brand_index b1 = brand_index b
             ∧ origin_index b1 = origin_index b
             ∧ reviews_index b1 = reviews_index b)
        ∨ (∃ bt bd,
             process_title product url b = (Val tt, bt)
             ∧ process_description product url bt = (Val tt, bd)
             ∧ process_features product url bd = (Exc e, b1)
             ∧ title_index b1 = title_index bt
             ∧ description_index b1 = description_index bd
             ∧ reviews_index b1 = reviews_index b)
        ∨ (∃ bt bd bf,
             process_title product url b = (Val tt, bt)
             ∧ process_description product url bt = (Val tt, bd)
             ∧ process_features product url bd = (Val tt, bf)
             ∧ process_reviews product url bf = (Exc e, b1)
             ∧ b1 = bf).
Proof.
  intros Hrun.
  destruct product as [| | | | | d |];
    try (left; split; [done |];
         unfold _process_product, py_get, bind, raise in Hrun; congruence).
  right. exists d. split; [done |].
  destruct (truthy (field "url" (JStr "") d)) eqn:Hurl.
  2:{ by rewrite process_product_falsy_url in Hrun. }
  split; [done |]. rewrite process_product_blocks in Hrun by done.
  cbv zeta in *. set (url := field "url" (JStr "") d) in *.
  destruct (process_title_preserves (JDict d) url) as (Ht1 & Ht2 & Ht3 & Ht4).
  destruct (process_description_preserves (JDict d) url)
    as (Hd1 & Hd2 & Hd3 & Hd4).
  destruct (process_features_preserves (JDict d) url) as (Hf1 & Hf2 & Hf3).
  apply bind_inv_exc in Hrun as [Hrun | ([] & bt & Htitle & Hrun)].
  { left. specialize (Ht1 b). specialize (Ht2 b). specialize (Ht3 b).
    specialize (Ht4 b). rewrite Hrun in *. done. }
  right. specialize (Ht2 b). specialize (Ht3 b). specialize (Ht4 b).
  rewrite Htitle in *. simpl in *.
  apply bind_inv_exc in Hrun as [Hrun | ([] & bd & Hdescr & Hrun)].
  { left. exists bt. specialize (Hd1 bt). specialize (Hd2 bt).
    specialize (Hd3 bt). specialize (Hd4 bt). rewrite Hrun in *. simpl in *.
    repeat split; congruence. }
  right. specialize (Hd1 bt). specialize (Hd4 bt). rewrite Hdescr in *.
  simpl in *.
  apply bind_inv_exc in Hrun as [Hrun | ([] & bf & Hfeat & Hrun)].
  { left. exists bt, bd. specialize (Hf1 bd). specialize (Hf2 bd).
    specialize (Hf3 bd). rewrite Hrun in *. simpl in *.
    repeat split; congruence. }
  right. exists bt, bd, bf. apply process_reviews_exc in Hrun as Heq.
  by subst b1.
Qed.

(** ** Claim C10 *)

(** C10: when processing a record raises, [process_jsonl] prints the error
    for that line and goes on with the next line from the state the record
    left; the blocks of the record before the failing one have returned and
    their updates stand, the blocks after it have not run and their tables
    are as before.  A truthy title that is not a string raises at once, a
    truthy description that is not a string raises after the title is
    indexed, and a rating that is not a number raises after title and brand
    are indexed and before any review record is stored. *)
Theorem C10_record_failure_is_not_atomic :
  (∀ n product rest b e b1,
     _process_product product b = (Exc e, b1) →
     process_lines n (Decoded product :: rest) b
     = ((process_lines (S n) rest b1).1,
        ProcessingError n e :: (process_lines (S n) rest b1).2)
     ∧ (((∀ d, product ≠ JDict d) ∧ b1 = b)
        ∨ ∃ d, product = JDict d
            ∧ truthy (field "url" (JStr "") d) = true
            ∧ let url := field "url" (JStr "") d in
              (process_title product url b = (Exc e, b1)
               ∧ description_index b1 = description_index b
               ∧ brand_index b1 = brand_index b
               ∧ origin_index b1 = origin_index b
               ∧ reviews_index b1 = reviews_index b)
              ∨ (∃ bt,
                   process_title product url b = (Val tt, bt)
                   ∧ process_description product url bt = (Exc e, b1)
                   ∧ title_index b1 = title_index bt
                   ∧ brand_index b1 = brand_index b
                   ∧ origin_index b1 = origin_index b
                   ∧ reviews_index b1 = reviews_index b)
              ∨ (∃ bt bd,
                   process_title product url b = (Val tt, bt)
                   ∧ process_description product url bt = (Val tt, bd)
                   ∧ process_features product url bd = (Exc e, b1)
                   ∧ title_index b1 = title_index bt
                   ∧ description_index b1 = description_index bd
                   ∧ reviews_index b1 = reviews_index b)
              ∨ (∃ bt bd bf,
                   process_title product url b = (Val tt, bt)
                   ∧ process_description product url bt = (Val tt, bd)
                   ∧ process_features product url bd = (Val tt, bf)
                   ∧ process_reviews product url bf = (Exc e, b1)
                   ∧ b1 = bf)))
  ∧ (∀ d b,
       truthy (field "url" (JStr "") d) = true →
       truthy (field "title" (JStr "") d) = true →
       is_str (field "title" (JStr "") d) = false →
       _process_product (JDict d) b = (Exc AttributeError, b))
  ∧ (∀ d b bt,
       truthy (field "url" (JStr "") d) = true →
       process_title (JDict d) (field "url" (JStr "") d) b = (Val tt, bt) →
       truthy (field "description" (JStr "") d) = true →
       is_str (field "description" (JStr "") d) = false →
       _process_product (JDict d) b = (Exc AttributeError, bt))
  ∧ (let doc :=
       JDict [("url", JStr "u1"); ("title", JStr "red shoe");
              ("product_features", JDict [("brand", JStr "Acme")]);
              ("product_reviews", JList [JDict [("rating", JStr "five")]])] in
     let b1 := snd (_process_product doc init) in
     fst (_process_product doc init) = Exc TypeError
     ∧ entry (title_index b1) "red" (KStr "u1") = Some [0%nat]
     ∧ KStr "u1" ∈ default ∅ (brand_index b1 !! "acme")
     ∧ reviews_index b1 !! KStr "u1" = None).
Proof.
  split; [| split; [| split]].
  - intros n product rest b e b1 Hrun. split.
    + rewrite process_lines_cons_decoded, Hrun.
      by destruct (process_lines (S n) rest b1).
    + by apply process_product_exc.
  - intros d b Hurl Ht Hs. rewrite process_product_blocks by done. cbv zeta.
    apply bind_exc. by apply process_title_not_str.
  - intros d b bt Hurl Htitle Ht Hs.
    rewrite process_product_blocks by done. cbv zeta.
    rewrite (bind_val _ _ _ _ _ Htitle).
    apply bind_exc. by apply process_description_not_str.
  - cbv zeta. split; [by vm_compute |]. split; [by vm_compute |].
    split; [| by vm_compute].
    apply (bool_decide_unpack _). by vm_compute.
Qed.

(** C10 at a file of two records: the first has a rating that is not a
    number, the second is sound and is indexed after it. *)
Lemma C10_record_failure_is_not_atomic_witness :
  let doc :=
    JDict [("url", JStr "u1"); ("title", JStr "red shoe");
           ("product_reviews", JList [JDict [("rating", JStr "five")]])] in
  let next := JDict [("url", JStr "u2"); ("title", JStr "blue hat")] in
  let b1 := snd (_process_product doc init) in
  _process_product doc init = (Exc TypeError, b1)
  ∧ process_lines 1 [Decoded doc; Decoded next] init
    = ((process_lines 2 [Decoded next] b1).1,
       ProcessingError 1 TypeError :: (process_lines 2 [Decoded next] b1).2).
Proof.
  intros doc next b1.
  assert (Hrun : _process_product doc init = (Exc TypeError, b1))
    by (by vm_compute).
  split; [exact Hrun |].
  exact (proj1 (proj1 C10_record_failure_is_not_atomic
                  1%nat doc [Decoded next] init TypeError b1 Hrun)).
Defined.

(** ** Claim C5 *)

(** C5 fails on the code: a record whose title is the number 2024 raises in
    the title block, so its description, brand and reviews are lost and the
    line is reported, whereas a record whose brand is a number only loses
    the brand. *)
Theorem C5_non_string_title_loses_the_record :
  let common :=
    [("description", JStr "nice red shoe");
     ("product_reviews", JList [JDict [("rating", JInt 5)]])] in
  let bad_title :=
    JDict ([("url", JStr "u1"); ("title", JInt 2024);
            ("product_features", JDict [("brand", JStr "Acme")])] ++ common) in
  let bad_brand :=
    JDict ([("url", JStr "u1"); ("title", JStr "red shoe");
            ("product_features", JDict [("brand", JInt 7)])] ++ common) in
  process_jsonl [Decoded bad_title] init
  = (init, [ProcessingError 1 AttributeError])
  ∧ (let b := (process_jsonl [Decoded bad_brand] init).1 in
     (process_jsonl [Decoded bad_brand] init).2 = []
     ∧ size (brand_index b) = 0%nat
     ∧ entry (title_index b) "shoe" (KStr "u1") = Some [1%nat]
     ∧ entry (description_index b) "nice" (KStr "u1") = Some [0%nat]
     ∧ reviews_index b !! KStr "u1"
       = Some {| total_reviews := 1;
                 mean_mark := NFloat (F64.of_int 5);
                 last_rating := JInt 5 |}).
Proof. by vm_compute. Qed.


(** * Further properties of the code *)

(** ** Tokens and queries *)

Lemma tokenize_join_space ws :
  Forall token_ok ws → tokenize (join_space ws) = ws.
Proof.
  induction ws as [| w ws IH]; intros Hok; [by vm_compute |].
  apply Forall_cons in Hok as [[Hcan Hstop] Hws].
  assert (Hw : tokenize w = [w]).
  { rewrite tokenize_of_canonical by done. by case_decide. }
  destruct ws as [| w' ws']; [done |].
  change (join_space (w :: w' :: ws'))
    with (w +:+ String " " (join_space (w' :: ws'))).
  by rewrite tokenize_append_space, Hw, IH.
Qed.

(** X1: joining the tokens of a text with single spaces and tokenizing
    again gives the same tokens, in the same order. *)
Theorem X1_tokenize_join_round_trip (s : string) :
  tokenize (join_space (tokenize s)) = tokenize s.
Proof.
  apply tokenize_join_space. apply Forall_forall.
  intros t Ht. by apply tokenize_canonical in Ht.
Qed.

(** Membership in the answer of [search_title], for any index. *)
Lemma search_title_elem q d u :
  u ∈ search_title q d ↔
  tokenize q ≠ [] ∧ in_all_postings d (tokenize q) u.
Proof.
  unfold search_title. case_bool_decide as Hq.
  { split; [by intros ?%elem_of_nil | by intros []]. }
  destruct (decide (Forall (λ t, is_Some (d !! t)) (tokenize q)))
    as [Hall | Hmiss].
  - rewrite Forall_forall in Hall. rewrite search_loop_none by done.
    split; [done | by intros []].
  - apply not_Forall_Exists in Hmiss; [| apply _].
    apply Exists_exists in Hmiss as (t & Ht & Hnone).
    assert (E : d !! t = None).
    { destruct (d !! t) eqn:E; [| done]. exfalso. apply Hnone. eauto. }
    rewrite (search_loop_miss d _ None t) by done. split.
    + by intros ?%elem_of_nil.
    + intros [_ Hin]. destruct (Hin t Ht) as (? & ? & _). congruence.
Qed.

Lemma search_title_nodup q d : NoDup (search_title q d).
Proof.
  unfold search_title. case_bool_decide; [constructor |].
  apply search_loop_nodup.
Qed.

(** X2: a query made of two parts that both have tokens matches exactly
    the documents that match both parts, so adding terms to a query never
    adds documents. *)
Theorem X2_search_conjunction (q1 q2 : string) (d : positional) (u : key) :
  tokenize q1 ≠ [] → tokenize q2 ≠ [] →
  u ∈ search_title (q1 +:+ String " " q2) d ↔
  u ∈ search_title q1 d ∧ u ∈ search_title q2 d.
Proof.
  intros H1 H2. rewrite !search_title_elem, tokenize_append_space.
  unfold in_all_postings. split.
  - intros [_ Hall]. repeat split; try done.
    + intros t Ht. apply Hall. apply elem_of_app. by left.
    + intros t Ht. apply Hall. apply elem_of_app. by right.
  - intros [[_ Ha] [_ Hb]]. split.
    + intros [? _]%app_eq_nil. done.
    + intros t [Ht | Ht]%elem_of_app; auto.
Qed.

Lemma X2_search_conjunction_witness :
  let idx :=
    title_index
      (process_jsonl
         [Decoded (JDict [("url", JStr "u1"); ("title", JStr "Blue Widget")]);
          Decoded (JDict [("url", JStr "u2"); ("title", JStr "Red Widget")])]
         init).1 in
  KStr "u1" ∈ search_title "blue widget" idx ↔
  KStr "u1" ∈ search_title "blue" idx ∧ KStr "u1" ∈ search_title "widget" idx.
Proof.
  intros idx.
  apply (X2_search_conjunction "blue" "widget" idx (KStr "u1"));
    by vm_compute.
Defined.

(** X3: the answer does not depend on the order of the two parts of a query
    nor on the case of its letters: the same documents come back, each
    once. *)
Theorem X3_search_order_and_case (q1 q2 : string) (d : positional) :
  search_title (q1 +:+ String " " q2) d
  ≡ₚ search_title (q2 +:+ String " " q1) d
  ∧ search_title (lower q1) d = search_title q1 d.
Proof.
  split.
  - apply NoDup_Permutation; [apply search_title_nodup.. |].
    intros u. rewrite !search_title_elem, !tokenize_append_space.
    unfold in_all_postings. split.
    + intros [Hne Hall]. split.
      * intros [E1 E2]%app_eq_nil. apply Hne. by rewrite E1, E2.
      * intros t [Ht | Ht]%elem_of_app; apply Hall, elem_of_app; auto.
    + intros [Hne Hall]. split.
      * intros [E1 E2]%app_eq_nil. apply Hne. by rewrite E1, E2.
      * intros t [Ht | Ht]%elem_of_app; apply Hall, elem_of_app; auto.
  - unfold search_title. by rewrite tokenize_lower.
Qed.

(** ** Reading an index back *)

Lemma elem_of_positions_of t tokens p :
  p ∈ positions_of t tokens ↔ tokens !! p = Some t.
Proof.
  unfold positions_of. rewrite elem_of_positions_from.
  replace (p - 0)%nat with p by lia. split; [by intros [] |].
  intros ?. split; [lia | done].
Qed.

(** X4: in an index that held nothing for the url, the postings written by
    [_index_text] spell the tokenized text back: position [p] is listed
    under token [t] exactly when [t] is the [p]-th token. *)
Theorem X4_postings_spell_the_text (s : string) (url : json) (k : key)
    (index : positional) (t : string) (p : nat) :
  hash_key url = Some k →
  (∀ t', entry index t' k = None) →
  (∃ ps, entry (snd (_index_text (JStr s) url index)) t k = Some ps ∧ p ∈ ps)
  ↔ tokenize s !! p = Some t.
Proof.
  intros Hk Hfresh.
  destruct (index_text_entry s url k index Hk) as (index' & -> & Hentry).
  simpl. rewrite Hentry, Hfresh, <- elem_of_positions_of.
  destruct (positions_of t (tokenize s)) as [| p0 ps] eqn:E.
  - split; [by intros (? & ? & _) | by intros ?%elem_of_nil].
  - simpl. split; [by intros (? & [= <-] & ?) | eauto].
Qed.

Lemma X4_postings_spell_the_text_witness :
  (∃ ps, entry (snd (_index_text (JStr "Red shoe, red hat") (JStr "u1") ∅))
           "red" (KStr "u1") = Some ps ∧ 2%nat ∈ ps)
  ↔ tokenize "Red shoe, red hat" !! 2%nat = Some "red".
Proof.
  apply (X4_postings_spell_the_text "Red shoe, red hat" (JStr "u1")
           (KStr "u1") ∅ "red" 2); [reflexivity |].
  intros t'. unfold entry. by rewrite lookup_empty.
Defined.

Lemma entry_is_Some (index : positional) t k :
  is_Some (entry index t k) ↔
  ∃ postings, index !! t = Some postings ∧ k ∈ dom postings.
Proof.
  unfold entry. destruct (index !! t) as [postings |]; simpl.
  - rewrite <- elem_of_dom. split; [eauto | by intros (? & [= <-] & ?)].
  - split; [by intros [? ?] | by intros (? & ? & _)].
Qed.

(** The title index after a record with a string title. *)
Lemma title_entry_after_record d k b s t :
  truthy (field "url" (JStr "") d) = true →
  hash_key (field "url" (JStr "") d) = Some k →
  field "title" (JStr "") d = JStr s →
  entry (title_index (snd (_process_product (JDict d) b))) t k
  = match positions_of t (tokenize s) with
    | [] => entry (title_index b) t k
    | ps => Some (default [] (entry (title_index b) t k) ++ ps)
    end.
Proof.
  intros Hurl Hk Hs. rewrite process_product_blocks by done. cbv zeta.
  set (url := field "url" (JStr "") d) in *.
  destruct (process_description_preserves (JDict d) url) as (Hd1 & _).
  destruct (process_features_preserves (JDict d) url) as (Hf1 & _).
  destruct (process_reviews_preserves (JDict d) url) as (Hr1 & _).
  rewrite (bind_preserved title_index).
  2:{ intros _. apply preserves_bind; [done | intros _].
      apply preserves_bind; [done | intros _]. done. }
  rewrite process_title_str with (s := s) by done.
  case_bool_decide as Hempty.
  - subst s. simpl. done.
  - rewrite zoom_snd. simpl.
    destruct (index_text_entry s url k (title_index b) Hk)
      as (index' & -> & Hentry).
    apply Hentry.
Qed.

(** X5: after a record with a string title whose url had no title postings
    yet, a query finds that url in the title index exactly when the query
    has a token and all its tokens are tokens of the title. *)
Theorem X5_indexed_title_is_found (d : list (string * json)) (k : key)
    (b : builder) (s q : string) :
  truthy (field "url" (JStr "") d) = true →
  hash_key (field "url" (JStr "") d) = Some k →
  field "title" (JStr "") d = JStr s →
  (∀ t, entry (title_index b) t k = None) →
  k ∈ search_title q (title_index (snd (_process_product (JDict d) b)))
  ↔ tokenize q ≠ [] ∧ ∀ t, t ∈ tokenize q → t ∈ tokenize s.
Proof.
  intros Hurl Hk Hs Hfresh. rewrite search_title_elem.
  unfold in_all_postings.
  assert (Hiff : ∀ t,
    (∃ postings,
       title_index (snd (_process_product (JDict d) b)) !! t = Some postings
       ∧ k ∈ dom postings)
    ↔ t ∈ tokenize s).
  { intros t. rewrite <- entry_is_Some.
    rewrite (title_entry_after_record d k b s t) by done.
    rewrite Hfresh.
    destruct (positions_of t (tokenize s)) as [| p ps] eqn:E.
    - apply positions_of_nil in E. split; [by intros [? ?] | done].
    - split; [| eauto]. intros _.
      apply dec_stable. intros Hnot%positions_of_nil. congruence. }
  split.
  - intros [Hne Hall]. split; [done |]. intros t Ht. by apply Hiff, Hall.
  - intros [Hne Hall]. split; [done |]. intros t Ht. by apply Hiff, Hall.
Qed.

Lemma X5_indexed_title_is_found_witness :
  let d := [("url", JStr "u1"); ("title", JStr "The Blue Widget")] in
  KStr "u1" ∈ search_title "widget BLUE"
                (title_index (snd (_process_product (JDict d) init))).
Proof.
  intros d.
  apply (X5_indexed_title_is_found d (KStr "u1") init "The Blue Widget"
           "widget BLUE" eq_refl eq_refl eq_refl).
  - intros t. unfold entry. simpl. by rewrite lookup_empty.
  - split; [by vm_compute |]. intros t Ht.
    apply (bool_decide_unpack _). vm_compute in Ht. set_unfold in Ht.
    destruct Ht as [-> | [-> | []]]; by vm_compute.
Defined.

(** ** The pass over the file, continued *)

Lemma process_lines_app l1 : ∀ l2 n b,
  process_lines n (l1 ++ l2) b
  = (let '(b1, log1) := process_lines n l1 b in
     let '(b2, log2) := process_lines (n + length l1) l2 b1 in
     (b2, log1 ++ log2)).
Proof.
  induction l1 as [| [product | | e0] l1 IH]; intros l2 n b; simpl.
  - rewrite Nat.add_0_r. by destruct (process_lines n l2 b).
  - destruct (_process_product product b) as [[[] | e] b1].
    + rewrite IH. by rewrite Nat.add_succ_r.
    + rewrite IH, Nat.add_succ_r. simpl.
      destruct (process_lines (S n) l1 b1) as [b2 log1].
      by destruct (process_lines (S (n + length l1)) l2 b2).
  - rewrite IH, Nat.add_succ_r. simpl.
    destruct (process_lines (S n) l1 b) as [b2 log1].
    by destruct (process_lines (S (n + length l1)) l2 b2).
  - rewrite IH, Nat.add_succ_r. simpl.
    destruct (process_lines (S n) l1 b) as [b2 log1].
    by destruct (process_lines (S (n + length l1)) l2 b2).
Qed.

(** X6: processing a file is processing its first lines and then, from the
    state they left and with the line count carried on, the remaining ones;
    the messages come in the same order. *)
Theorem X6_process_lines_app (l1 l2 : list line) (n : nat) (b : builder) :
  process_lines n (l1 ++ l2) b
  = (let '(b1, log1) := process_lines n l1 b in
     let '(b2, log2) := process_lines (n + length l1) l2 b1 in
     (b2, log1 ++ log2)).
Proof. apply process_lines_app. Qed.

Lemma process_lines_state_any_start lines : ∀ n m b,
  (process_lines n lines b).1 = (process_lines m lines b).1.
Proof.
  induction lines as [| [product | | e0] rest IH]; intros n m b; simpl;
    [done | | |].
  - destruct (_process_product product b) as [[[] | e] b1]; [apply IH |].
    specialize (IH (S n) (S m) b1).
    destruct (process_lines (S n) rest b1), (process_lines (S m) rest b1).
    done.
  - specialize (IH (S n) (S m) b).
    destruct (process_lines (S n) rest b), (process_lines (S m) rest b).
    done.
  - specialize (IH (S n) (S m) b).
    destruct (process_lines (S n) rest b), (process_lines (S m) rest b).
    done.
Qed.

Lemma process_lines_json_errors lines : ∀ n b j,
  JsonError j ∈ (process_lines n lines b).2 ↔
  (n ≤ j)%nat ∧ lines !! (j - n)%nat = Some Undecodable.
Proof.
  induction lines as [| l rest IH]; intros n b j.
  - simpl. split; [by intros ?%elem_of_nil | by intros [_ ?]].
  - assert (Hstep : ∀ b1,
      JsonError j ∈ (process_lines (S n) rest b1).2 ↔
      (n < j)%nat ∧ (l :: rest) !! (j - n)%nat = Some Undecodable).
    { intros b1. rewrite IH. split.
      - intros [Hle Hj]. split; [lia |].
        replace (j - n)%nat with (S (j - S n)) by lia. done.
      - intros [Hlt Hj]. split; [lia |].
        replace (j - n)%nat with (S (j - S n)) in Hj by lia. done. }
    destruct l as [product | | e0]; simpl.
    + destruct (_process_product product b) as [[[] | e] b1].
      * rewrite Hstep. split.
        -- intros [? ?]. split; [lia | done].
        -- intros [Hle Hj]. destruct (decide (j = n)) as [-> | ?].
           ++ by replace (n - n)%nat with 0%nat in Hj by lia.
           ++ split; [lia | done].
      * specialize (Hstep b1).
        destruct (process_lines (S n) rest b1) as [b2 log]. simpl in *.
        rewrite elem_of_cons, Hstep. split.
        -- intros [[=] | [? ?]]. split; [lia | done].
        -- intros [Hle Hj]. right. destruct (decide (j = n)) as [-> | ?].
           ++ by replace (n - n)%nat with 0%nat in Hj by lia.
           ++ split; [lia | done].
    + specialize (Hstep b).
      destruct (process_lines (S n) rest b) as [b2 log]. simpl in *.
      rewrite elem_of_cons, Hstep. split.
      * intros [[= ->] | [? ?]].
        -- split; [lia |]. by replace (n - n)%nat with 0%nat by lia.
        -- split; [lia | done].
      * intros [Hle Hj]. destruct (decide (j = n)) as [-> | ?]; [by left |].
        right. split; [lia | done].
    + specialize (Hstep b).
      destruct (process_lines (S n) rest b) as [b2 log]. simpl in *.
      rewrite elem_of_cons, Hstep. split.
      * intros [[=] | [? ?]]. split; [lia | done].
      * intros [Hle Hj]. right. destruct (decide (j = n)) as [-> | ?].
        -- by replace (n - n)%nat with 0%nat in Hj by lia.
        -- split; [lia | done].
Qed.

Lemma process_lines_decoded_only lines : ∀ n b,
  (process_lines n lines b).1
  = (process_lines n (filter (λ l, is_decoded l = true) lines) b).1.
Proof.
  induction lines as [| [product | | e0] rest IH]; intros n b; [done | | |].
  - rewrite filter_cons_True by done. simpl.
    destruct (_process_product product b) as [[[] | e] b1]; [apply IH |].
    specialize (IH (S n) b1).
    destruct (process_lines (S n) rest b1),
      (process_lines (S n) (filter _ rest) b1). done.
  - rewrite filter_cons_False by done. simpl.
    specialize (IH (S n) b).
    rewrite (process_lines_state_any_start (filter _ rest) n (S n)).
    by destruct (process_lines (S n) rest b).
  - rewrite filter_cons_False by done. simpl.
    specialize (IH (S n) b).
    rewrite (process_lines_state_any_start (filter _ rest) n (S n)).
    by destruct (process_lines (S n) rest b).
Qed.

(** X7: a line that cannot be decoded changes no table: the tables after
    the file are those after the file without such lines; and the file
    reports a JSON error for line [j] exactly when line [j] cannot be
    decoded. *)
Theorem X7_undecodable_lines (lines : list line) (b : builder) :
  (process_jsonl lines b).1
  = (process_jsonl (filter (λ l, is_decoded l = true) lines) b).1
  ∧ ∀ j, JsonError j ∈ (process_jsonl lines b).2 ↔
         (1 ≤ j)%nat ∧ lines !! (j - 1)%nat = Some Undecodable.
Proof.
  unfold process_jsonl. split.
  - apply process_lines_decoded_only.
  - intros j. apply process_lines_json_errors.
Qed.

Lemma process_lines_log_sorted lines : ∀ n b,
  StronglySorted lt (message_line <$> (process_lines n lines b).2).
Proof.
  induction lines as [| l rest IH]; intros n b; [constructor |].
  assert (Hcons : ∀ b1 m, message_line m = n →
    StronglySorted lt
      (message_line <$> m :: (process_lines (S n) rest b1).2)).
  { intros b1 m Hm. simpl. constructor; [apply IH |].
    apply Forall_forall. intros x (m' & -> & Hin)%list_elem_of_fmap.
    apply process_lines_log_bound in Hin. lia. }
  destruct l as [product | | e0]; simpl.
  - destruct (_process_product product b) as [[[] | e] b1]; [apply IH |].
    specialize (Hcons b1 (ProcessingError n e) eq_refl).
    by destruct (process_lines (S n) rest b1).
  - specialize (Hcons b (JsonError n) eq_refl).
    by destruct (process_lines (S n) rest b).
  - specialize (Hcons b (ProcessingError n e0) eq_refl).
    by destruct (process_lines (S n) rest b).
Qed.

Lemma process_lines_log_range lines : ∀ n b m,
  m ∈ (process_lines n lines b).2 →
  (message_line m < n + length lines)%nat.
Proof.
  induction lines as [| [product | | e0] rest IH]; intros n b m; simpl.
  - by intros ?%elem_of_nil.
  - destruct (_process_product product b) as [[[] | e] b1].
    + intros Hm%IH. lia.
    + specialize (IH (S n) b1 m).
      destruct (process_lines (S n) rest b1) as [b' log]. simpl in *.
      intros [-> | Hm]%elem_of_cons; [simpl; lia |]. apply IH in Hm. lia.
  - specialize (IH (S n) b m).
    destruct (process_lines (S n) rest b) as [b' log]. simpl in *.
    intros [-> | Hm]%elem_of_cons; [simpl; lia |]. apply IH in Hm. lia.
  - specialize (IH (S n) b m).
    destruct (process_lines (S n) rest b) as [b' log]. simpl in *.
    intros [-> | Hm]%elem_of_cons; [simpl; lia |]. apply IH in Hm. lia.
Qed.

(** X8: the messages of a file are about lines of the file, numbered from
    1, and come in strictly increasing line order, so no line is reported
    twice. *)
Theorem X8_messages_in_line_order (lines : list line) (b : builder) :
  StronglySorted lt (message_line <$> (process_jsonl lines b).2)
  ∧ ∀ m, m ∈ (process_jsonl lines b).2 →
         (1 ≤ message_line m ≤ length lines)%nat.
Proof.
  unfold process_jsonl. split; [apply process_lines_log_sorted |].
  intros m Hm. split.
  - by apply process_lines_log_bound in Hm.
  - apply process_lines_log_range in Hm. lia.
Qed.

(** ** A record only touches its own document *)

Lemma positional_append_other token url position k index :
  hash_key url ≠ Some k →
  pos_same k index (snd (positional_append token url position index)).
Proof.
  intros Hk t. unfold positional_append, entry.
  destruct (hash_key url) as [k0 |]; simpl.
  - destruct (decide (token = t)) as [-> | Hne].
    + rewrite lookup_insert_eq. simpl.
      rewrite lookup_insert_ne by congruence.
      by destruct (index !! t).
    + by rewrite lookup_insert_ne.
  - destruct (decide (token = t)) as [-> | Hne].
    + rewrite lookup_insert_eq. by destruct (index !! t).
    + by rewrite lookup_insert_ne.
Qed.

Lemma categorical_add_other token url k index :
  hash_key url ≠ Some k →
  cat_same k index (snd (categorical_add token url index)).
Proof.
  intros Hk t. unfold categorical_add.
  destruct (hash_key url) as [k0 |]; simpl.
  - destruct (decide (token = t)) as [-> | Hne].
    + rewrite lookup_insert_eq. simpl.
      rewrite elem_of_union, elem_of_singleton. split; [| by right].
      intros [-> | ?]; [congruence | done].
    + by rewrite lookup_insert_ne.
  - destruct (decide (token = t)) as [-> | Hne].
    + rewrite lookup_insert_eq. by destruct (index !! t).
    + by rewrite lookup_insert_ne.
Qed.

Lemma index_text_other text url k i0 :
  hash_key url ≠ Some k → invariant (pos_same k i0) (_index_text text url).
Proof.
  intros Hk. unfold _index_text. apply invariant_bind.
  { destruct text; by intros ?. }
  intros tokens _ _ _. apply invariant_for_each. intros [p t] _.
  case_bool_decide; [| apply invariant_ret].
  intros i Hi t'. rewrite positional_append_other by done. apply Hi.
Qed.

Lemma index_feature_other name features url k c0 :
  hash_key url ≠ Some k →
  invariant (cat_same k c0) (index_feature name features url).
Proof.
  intros Hk. unfold index_feature. apply invariant_bind.
  { destruct features; by intros ?. }
  intros [] _ _ _; [| apply invariant_ret].
  apply invariant_bind.
  { destruct features as [| | | | | d |]; try by intros ?.
    simpl. destruct (dict_lookup name d); by intros ?. }
  intros value _ _ _.
  destruct (is_str value && truthy value); [| apply invariant_ret].
  apply invariant_bind.
  { destruct value; by intros ?. }
  intros tokens _ _ _. apply invariant_for_each. intros t _.
  intros c Hc t'.
  etrans; [by apply (categorical_add_other t url k c) | apply Hc].
Qed.

Lemma index_reviews_other reviews url k table :
  hash_key url ≠ Some k →
  (snd (index_reviews reviews url table)) !! k = table !! k.
Proof.
  intros Hk. pose proof (index_reviews_spec reviews url table) as H.
  destruct (index_reviews reviews url table) as [[[] | e] table']; simpl.
  - destruct H as (k0 & stats & Hk0 & -> & _).
    apply lookup_insert_ne. congruence.
  - by subst.
Qed.

Lemma process_product_other product k b0 :
  (∀ d, product = JDict d → hash_key (field "url" (JStr "") d) ≠ Some k) →
  invariant (builder_same k b0) (_process_product product).
Proof.
  intros Hk. unfold _process_product. apply invariant_bind.
  { apply invariant_py_get. }
  intros url s s' Hget.
  assert (Hurl : hash_key url ≠ Some k).
  { destruct product as [| | | | | d |]; try discriminate.
    injection Hget as <- _. by apply Hk. }
  clear Hget. destruct (negb (truthy url)); [apply invariant_ret |].
  apply invariant_bind.
  { unfold process_title. apply invariant_bind; [apply invariant_py_get |].
    intros title _ _ _. destruct (truthy title); [| apply invariant_ret].
    apply (invariant_zoom _ (pos_same k (title_index b0)));
      [| | by apply index_text_other].
    - by intros ? (? & ? & ? & ? & ?).
    - by intros ? ? (? & ? & ? & ? & ?) ?. }
  intros _ _ _ _. apply invariant_bind.
  { unfold process_description.
    apply invariant_bind; [apply invariant_py_get |].
    intros description _ _ _.
    destruct (truthy description); [| apply invariant_ret].
    apply (invariant_zoom _ (pos_same k (description_index b0)));
      [| | by apply index_text_other].
    - by intros ? (? & ? & ? & ? & ?).
    - by intros ? ? (? & ? & ? & ? & ?) ?. }
  intros _ _ _ _. apply invariant_bind.
  { unfold process_features. apply invariant_bind; [apply invariant_py_get |].
    intros features _ _ _. apply invariant_bind.
    - apply (invariant_zoom _ (cat_same k (brand_index b0)));
        [| | by apply index_feature_other].
      + by intros ? (? & ? & ? & ? & ?).
      + by intros ? ? (? & ? & ? & ? & ?) ?.
    - intros _ _ _ _.
      apply (invariant_zoom _ (cat_same k (origin_index b0)));
        [| | by apply index_feature_other].
      + by intros ? (? & ? & ? & ? & ?).
      + by intros ? ? (? & ? & ? & ? & ?) ?. }
  intros _ _ _ _. unfold process_reviews.
  apply invariant_bind; [apply invariant_py_get |].
  intros reviews _ _ _. intros b (H1 & H2 & H3 & H4 & H5).
  rewrite zoom_snd. split; [done |]. split; [done |]. split; [done |].
  split; [done |]. cbn [reviews_index set_reviews_index].
  by rewrite index_reviews_other.
Qed.

(** X9: processing a record, whether it returns or raises, leaves what the
    five tables hold about any document other than the record's url as it
    was: the positions under every token of the title and description
    indexes, the membership under every token of the brand and origin
    indexes, and the review record. *)
Theorem X9_other_documents_untouched (product : json) (k : key)
    (b : builder) :
  (∀ d, product = JDict d → hash_key (field "url" (JStr "") d) ≠ Some k) →
  let b' := snd (_process_product product b) in
  (∀ t, entry (title_index b') t k = entry (title_index b) t k)
  ∧ (∀ t, entry (description_index b') t k
          = entry (description_index b) t k)
  ∧ (∀ t, k ∈ default ∅ (brand_index b' !! t)
          ↔ k ∈ default ∅ (brand_index b !! t))
  ∧ (∀ t, k ∈ default ∅ (origin_index b' !! t)
          ↔ k ∈ default ∅ (origin_index b !! t))
  ∧ reviews_index b' !! k = reviews_index b !! k.
Proof.
  intros Hk. apply (process_product_other product k b Hk b).
  by repeat split.
Qed.

Lemma X9_other_documents_untouched_witness :
  let first := JDict [("url", JStr "u1"); ("title", JStr "Blue Widget")] in
  let second :=
    JDict [("url", JStr "u2"); ("title", JStr "Red Widget");
           ("product_reviews", JList [JDict [("rating", JStr "five")]])] in
  let b := snd (_process_product first init) in
  entry (title_index (snd (_process_product second b))) "widget" (KStr "u1")
  = entry (title_index b) "widget" (KStr "u1").
Proof.
  intros first second b.
  refine (proj1 (X9_other_documents_untouched second (KStr "u1") b _)
            "widget").
  intros d [= <-]. discriminate.
Defined.

(** ** Nothing is ever removed *)

Lemma pos_grows_refl i : pos_grows i i.
Proof.
  intros t postings Ht. exists postings. split; [done |].
  intros k l Hl. exists []. by rewrite app_nil_r.
Qed.

Lemma pos_grows_trans i1 i2 i3 :
  pos_grows i1 i2 → pos_grows i2 i3 → pos_grows i1 i3.
Proof.
  intros H12 H23 t p1 Ht.
  destruct (H12 t p1 Ht) as (p2 & Ht2 & Hp12).
  destruct (H23 t p2 Ht2) as (p3 & Ht3 & Hp23).
  exists p3. split; [done |]. intros k l Hl.
  destruct (Hp12 k l Hl) as (l' & Hl2).
  destruct (Hp23 k _ Hl2) as (l'' & Hl3).
  exists (l' ++ l''). by rewrite app_assoc.
Qed.

Lemma cat_grows_refl c : cat_grows c c.
Proof. intros t urls Ht. by exists urls. Qed.

Lemma cat_grows_trans c1 c2 c3 :
  cat_grows c1 c2 → cat_grows c2 c3 → cat_grows c1 c3.
Proof.
  intros H12 H23 t u1 Ht.
  destruct (H12 t u1 Ht) as (u2 & Ht2 & Hu12).
  destruct (H23 t u2 Ht2) as (u3 & Ht3 & Hu23).
  exists u3. split; [done |]. by etrans.
Qed.

Lemma positional_append_grows token url position index :
  pos_grows index (snd (positional_append token url position index)).
Proof.
  intros t postings Ht. unfold positional_append.
  destruct (hash_key url) as [k0 |]; simpl.
  - destruct (decide (token = t)) as [-> | Hne].
    + rewrite lookup_insert_eq, Ht. simpl. eexists. split; [done |].
      intros k l Hl. destruct (decide (k0 = k)) as [-> | Hk].
      * rewrite lookup_insert_eq, Hl. simpl. eauto.
      * rewrite lookup_insert_ne by done. exists []. by rewrite app_nil_r.
    + rewrite lookup_insert_ne by done. by apply pos_grows_refl.
  - destruct (decide (token = t)) as [-> | Hne].
    + rewrite lookup_insert_eq, Ht. simpl. eexists. split; [done |].
      intros k l Hl. exists []. by rewrite app_nil_r.
    + rewrite lookup_insert_ne by done. by apply pos_grows_refl.
Qed.

Lemma categorical_add_grows token url index :
  cat_grows index (snd (categorical_add token url index)).
Proof.
  intros t urls Ht. unfold categorical_add.
  destruct (hash_key url) as [k0 |]; simpl.
  - destruct (decide (token = t)) as [-> | Hne].
    + rewrite lookup_insert_eq, Ht. simpl. eexists. split; [done |].
      apply union_subseteq_r.
    + rewrite lookup_insert_ne by done. by exists urls.
  - destruct (decide (token = t)) as [-> | Hne].
    + rewrite lookup_insert_eq, Ht. simpl. by exists urls.
    + rewrite lookup_insert_ne by done. by exists urls.
Qed.

Lemma index_text_grows text url i0 :
  invariant (pos_grows i0) (_index_text text url).
Proof.
  unfold _index_text. apply invariant_bind.
  { destruct text; by intros ?. }
  intros tokens _ _ _. apply invariant_for_each. intros [p t] _.
  case_bool_decide; [| apply invariant_ret].
  intros i Hi. eapply pos_grows_trans; [exact Hi |].
  apply positional_append_grows.
Qed.

Lemma index_feature_grows name features url c0 :
  invariant (cat_grows c0) (index_feature name features url).
Proof.
  unfold index_feature. apply invariant_bind.
  { destruct features; by intros ?. }
  intros [] _ _ _; [| apply invariant_ret].
  apply invariant_bind.
  { destruct features as [| | | | | d |]; try by intros ?.
    simpl. destruct (dict_lookup name d); by intros ?. }
  intros value _ _ _.
  destruct (is_str value && truthy value); [| apply invariant_ret].
  apply invariant_bind.
  { destruct value; by intros ?. }
  intros tokens _ _ _. apply invariant_for_each. intros t _.
  intros c Hc. eapply cat_grows_trans; [exact Hc |].
  apply categorical_add_grows.
Qed.

Lemma index_reviews_grows reviews url table :
  dom table ⊆ dom (snd (index_reviews reviews url table)).
Proof.
  pose proof (index_reviews_spec reviews url table) as H.
  destruct (index_reviews reviews url table) as [[[] | e] table']; simpl.
  - destruct H as (k0 & stats & _ & -> & _). rewrite dom_insert_L.
    apply union_subseteq_r.
  - by subst.
Qed.

Lemma process_product_grows product b0 :
  invariant (builder_grows b0) (_process_product product).
Proof.
  unfold _process_product. apply invariant_bind.
  { apply invariant_py_get. }
  intros url _ _ _. destruct (negb (truthy url)); [apply invariant_ret |].
  apply invariant_bind.
  { unfold process_title. apply invariant_bind; [apply invariant_py_get |].
    intros title _ _ _. destruct (truthy title); [| apply invariant_ret].
    apply (invariant_zoom _ (pos_grows (title_index b0)));
      [| | by apply index_text_grows].
    - by intros ? (? & ? & ? & ? & ?).
    - by intros ? ? (? & ? & ? & ? & ?) ?. }
  intros _ _ _ _. apply invariant_bind.
  { unfold process_description.
    apply invariant_bind; [apply invariant_py_get |].
    intros description _ _ _.
    destruct (truthy description); [| apply invariant_ret].
    apply (invariant_zoom _ (pos_grows (description_index b0)));
      [| | by apply index_text_grows].
    - by intros ? (? & ? & ? & ? & ?).
    - by intros ? ? (? & ? & ? & ? & ?) ?. }
  intros _ _ _ _. apply invariant_bind.
  { unfold process_features. apply invariant_bind; [apply invariant_py_get |].
    intros features _ _ _. apply invariant_bind.
    - apply (invariant_zoom _ (cat_grows (brand_index b0)));
        [| | by apply index_feature_grows].
      + by intros ? (? & ? & ? & ? & ?).
      + by intros ? ? (? & ? & ? & ? & ?) ?.
    - intros _ _ _ _.
      apply (invariant_zoom _ (cat_grows (origin_index b0)));
        [| | by apply index_feature_grows].
      + by intros ? (? & ? & ? & ? & ?).
      + by intros ? ? (? & ? & ? & ? & ?) ?. }
  intros _ _ _ _. unfold process_reviews.
  apply invariant_bind; [apply invariant_py_get |].
  intros reviews _ _ _. intros b (H1 & H2 & H3 & H4 & H5).
  rewrite zoom_snd. split; [done |]. split; [done |]. split; [done |].
  split; [done |]. cbn [reviews_index set_reviews_index].
  etrans; [exact H5 | apply index_reviews_grows].
Qed.

Lemma process_lines_grows lines : ∀ n b0 b,
  builder_grows b0 b → builder_grows b0 (process_lines n lines b).1.
Proof.
  induction lines as [| [product | | e0] rest IH]; intros n b0 b Hb; simpl.
  - done.
  - pose proof (process_product_grows product b0 b Hb) as H1.
    destruct (_process_product product b) as [[[] | e] b1]; simpl in H1.
    + by apply IH.
    + specialize (IH (S n) b0 b1 H1).
      by destruct (process_lines (S n) rest b1).
  - specialize (IH (S n) b0 b Hb). by destruct (process_lines (S n) rest b).
  - specialize (IH (S n) b0 b Hb). by destruct (process_lines (S n) rest b).
Qed.

Lemma entry_grows i i' t k l :
  pos_grows i i' → entry i t k = Some l → ∃ l', entry i' t k = Some (l ++ l').
Proof.
  unfold entry. intros Hg H.
  destruct (i !! t) as [postings |] eqn:Ht; [| done]. simpl in H.
  destruct (Hg t postings Ht) as (postings' & -> & Hp). simpl.
  by apply Hp.
Qed.

(** X10: a pass over a file removes nothing.  Every token of each of the
    four indexes is still a token of it; every position list of the title
    and description indexes is a prefix of the list held afterwards; every
    document listed under a brand or origin token is still listed; every
    url with a review record still has one. *)
Theorem X10_pass_only_adds (lines : list line) (b : builder) :
  let b' := (process_jsonl lines b).1 in
  (dom (title_index b) ⊆ dom (title_index b')
   ∧ ∀ t k l, entry (title_index b) t k = Some l →
              ∃ l', entry (title_index b') t k = Some (l ++ l'))
  ∧ (dom (description_index b) ⊆ dom (description_index b')
     ∧ ∀ t k l, entry (description_index b) t k = Some l →
                ∃ l', entry (description_index b') t k = Some (l ++ l'))
  ∧ (dom (brand_index b) ⊆ dom (brand_index b')
     ∧ ∀ t k, k ∈ default ∅ (brand_index b !! t) →
              k ∈ default ∅ (brand_index b' !! t))
  ∧ (dom (origin_index b) ⊆ dom (origin_index b')
     ∧ ∀ t k, k ∈ default ∅ (origin_index b !! t) →
              k ∈ default ∅ (origin_index b' !! t))
  ∧ dom (reviews_index b) ⊆ dom (reviews_index b').
Proof.
  intros b'.
  assert (Hg : builder_grows b b').
  { apply process_lines_grows.
    repeat split; auto using pos_grows_refl, cat_grows_refl. }
  destruct Hg as (Ht & Hd & Hb & Ho & Hr).
  assert (Hpos : ∀ i i' : positional, pos_grows i i' →
    dom i ⊆ dom i'
    ∧ ∀ t k l, entry i t k = Some l → ∃ l', entry i' t k = Some (l ++ l')).
  { intros i i' Hg. split.
    - intros t [postings Hp]%elem_of_dom.
      destruct (Hg t postings Hp) as (? & ? & _). apply elem_of_dom. eauto.
    - intros t k l. by apply entry_grows. }
  assert (Hcat : ∀ c c' : categorical, cat_grows c c' →
    dom c ⊆ dom c'
    ∧ ∀ t k, k ∈ default ∅ (c !! t) → k ∈ default ∅ (c' !! t)).
  { intros c c' Hg. split.
    - intros t [urls Hu]%elem_of_dom.
      destruct (Hg t urls Hu) as (? & ? & _). apply elem_of_dom. eauto.
    - intros t k. destruct (c !! t) as [urls |] eqn:E; simpl.
      + destruct (Hg t urls E) as (urls' & -> & Hsub). simpl. apply Hsub.
      + by intros ?%not_elem_of_empty. }
  split; [by apply Hpos |]. split; [by apply Hpos |].
  split; [by apply Hcat |]. split; [by apply Hcat | done].
Qed.

(** ** What the categorical indexes hold *)

Lemma process_description_returns d url k b :
  hash_key url = Some k →
  (truthy (field "description" (JStr "") d) = true →
   is_str (field "description" (JStr "") d) = true) →
  ∃ b1, process_description (JDict d) url b = (Val tt, b1).
Proof.
  intros Hk Hstr. unfold process_description, py_get.
  fold (field "description" (JStr "") d). unfold bind at 1, ret at 1.
  destruct (truthy (field "description" (JStr "") d)) eqn:Ht; [| by eexists].
  destruct (field "description" (JStr "") d) as [| | | s | | |];
    try (by specialize (Hstr eq_refl)).
  destruct (index_text_entry s url k (description_index b) Hk)
    as (i' & Hrun & _).
  unfold zoom. rewrite Hrun. by eexists.
Qed.

(** The loop over the tokens of a feature, for a hashable url. *)
Lemma categorical_loop url k tokens : ∀ index,
  hash_key url = Some k →
  ∃ index',
    for_each tokens (λ token, categorical_add token url) index
    = (Val tt, index')
    ∧ ∀ t, index' !! t
           = if decide (t ∈ tokens)
             then Some ({[k]} ∪ default ∅ (index !! t))
             else index !! t.
Proof.
  induction tokens as [| tok tokens IH]; intros index Hk.
  - exists index. split; [done |]. intros t.
    by rewrite decide_False by apply not_elem_of_nil.
  - destruct (IH (<[tok := {[k]} ∪ default ∅ (index !! tok)]> index) Hk)
      as (index' & Hrun & Hlook).
    exists index'. split.
    + simpl. unfold bind at 1. unfold categorical_add at 1. rewrite Hk.
      exact Hrun.
    + intros t. rewrite Hlook.
      destruct (decide (t = tok)) as [-> | Hne].
      * rewrite lookup_insert_eq. simpl.
        rewrite (decide_True (P := tok ∈ tok :: tokens)) by (by left).
        case_decide; [| done].
        by rewrite (assoc_L (∪)), (idemp_L (∪)).
      * rewrite lookup_insert_ne by done.
        case_decide as Hin.
        -- by rewrite decide_True by (by right).
        -- rewrite decide_False; [done |].
           by intros [? | ?]%elem_of_cons.
Qed.

Lemma index_feature_str name fd url k s index :
  hash_key url = Some k →
  dict_lookup name fd = Some (JStr s) →
  ∃ index',
    index_feature name (JDict fd) url index = (Val tt, index')
    ∧ ∀ t, index' !! t
           = if decide (t ∈ tokenize s)
             then Some ({[k]} ∪ default ∅ (index !! t))
             else index !! t.
Proof.
  intros Hk Hname. unfold index_feature, py_in, py_getitem.
  rewrite Hname. unfold bind at 1, ret at 1.
  rewrite bool_decide_eq_true_2 by eauto.
  unfold bind at 1, ret at 1. simpl.
  case_bool_decide as Hs; simpl.
  - subst s. exists index. split; [done |]. intros t.
    rewrite decide_False; [done |]. vm_compute. by intros ?%elem_of_nil.
  - unfold bind at 1, ret at 1. by apply categorical_loop.
Qed.

Lemma index_feature_dict_returns name fd url k index :
  hash_key url = Some k →
  ∃ index', index_feature name (JDict fd) url index = (Val tt, index').
Proof.
  intros Hk. unfold index_feature, py_in, py_getitem.
  unfold bind at 1, ret at 1.
  destruct (dict_lookup name fd) as [value |] eqn:E.
  2:{ rewrite bool_decide_eq_false_2 by (by intros [? ?]). by eexists. }
  rewrite bool_decide_eq_true_2 by eauto.
  unfold bind at 1, ret at 1.
  destruct (is_str value && truthy value) eqn:Hv; [| by eexists].
  destruct value as [| | | s | | |]; try discriminate.
  unfold bind at 1. simpl.
  destruct (categorical_loop url k (tokenize s) index Hk) as (i' & -> & _).
  by eexists.
Qed.

(** X11: for a record with a truthy, hashable url, a title and a
    description that are absent, falsy or strings, and a dict of features:
    a string brand puts the url under each token of the tokenized brand in
    the brand index, next to the documents already there, and leaves every
    other token of the index as it was; a string [made in] does the same
    in the origin index. *)
Theorem X11_feature_postings (d fd : list (string * json)) (k : key)
    (b : builder) :
  truthy (field "url" (JStr "") d) = true →
  hash_key (field "url" (JStr "") d) = Some k →
  (truthy (field "title" (JStr "") d) = true →
   is_str (field "title" (JStr "") d) = true) →
  (truthy (field "description" (JStr "") d) = true →
   is_str (field "description" (JStr "") d) = true) →
  field "product_features" (JDict []) d = JDict fd →
  let b' := snd (_process_product (JDict d) b) in
  (∀ s t, dict_lookup "brand" fd = Some (JStr s) →
          brand_index b' !! t
          = if decide (t ∈ tokenize s)
            then Some ({[k]} ∪ default ∅ (brand_index b !! t))
            else brand_index b !! t)
  ∧ (∀ s t, dict_lookup "made in" fd = Some (JStr s) →
            origin_index b' !! t
            = if decide (t ∈ tokenize s)
              then Some ({[k]} ∪ default ∅ (origin_index b !! t))
              else origin_index b !! t).
Proof.
  intros Hurl Hk Htitle Hdescr Hfeat b'. subst b'.
  rewrite process_product_blocks by done. cbv zeta.
  set (url := field "url" (JStr "") d) in *.
  destruct (process_title_returns d url k b Hk Htitle) as (bt & Hbt).
  destruct (process_description_returns d url k bt Hk Hdescr) as (bd & Hbd).
  destruct (process_title_preserves (JDict d) url) as (_ & Ht3 & Ht4 & _).
  destruct (process_description_preserves (JDict d) url)
    as (_ & Hd3 & Hd4 & _).
  destruct (process_reviews_preserves (JDict d) url) as (_ & _ & Hr3 & Hr4).
  specialize (Ht3 b). specialize (Ht4 b). rewrite Hbt in Ht3, Ht4.
  specialize (Hd3 bt). specialize (Hd4 bt). rewrite Hbd in Hd3, Hd4.
  simpl in *.
  rewrite (bind_val _ _ _ _ _ Hbt), (bind_val _ _ _ _ _ Hbd).
  assert (Hfeatures : process_features (JDict d) url bd
    = (run zoom brand_index set_brand_index
             (index_feature "brand" (JDict fd) url);
       zoom origin_index set_origin_index
         (index_feature "made in" (JDict fd) url)) bd).
  { unfold process_features, py_get.
    fold (field "product_features" (JDict []) d). rewrite Hfeat.
    by unfold bind at 1, ret at 1. }
  split.
  - intros s t Hbrand. rewrite (bind_preserved brand_index) by done.
    rewrite Hfeatures.
    rewrite (bind_preserved brand_index)
      by (intros _; by apply preserves_zoom).
    rewrite zoom_snd. cbn [brand_index set_brand_index].
    destruct (index_feature_str "brand" fd url k s (brand_index bd) Hk Hbrand)
      as (i' & -> & Hlook).
    simpl. rewrite Hlook. by rewrite Hd3, Ht3.
  - intros s t Horigin. rewrite (bind_preserved origin_index) by done.
    rewrite Hfeatures.
    destruct (index_feature_dict_returns "brand" fd url k (brand_index bd) Hk)
      as (ib & Hib).
    assert (Hbrand : zoom brand_index set_brand_index
                       (index_feature "brand" (JDict fd) url) bd
                     = (Val tt, set_brand_index ib bd)).
    { unfold zoom. by rewrite Hib. }
    rewrite (bind_val _ _ _ _ _ Hbrand). rewrite zoom_snd.
    cbn [origin_index set_origin_index set_brand_index].
    destruct (index_feature_str "made in" fd url k s (origin_index bd) Hk
                Horigin) as (i' & -> & Hlook).
    simpl. rewrite Hlook. by rewrite Hd4, Ht4.
Qed.

Lemma X11_feature_postings_witness :
  let fd := [("brand", JStr "Acme Tools"); ("made in", JStr "France")] in
  let d := [("url", JStr "u1"); ("title", JStr "Blue Widget");
            ("product_features", JDict fd)] in
  let b' := snd (_process_product (JDict d) init) in
  brand_index b' !! "tools" = Some ({[KStr "u1"]} ∪ ∅)
  ∧ origin_index b' !! "france" = Some ({[KStr "u1"]} ∪ ∅).
Proof.
  intros fd d b'.
  destruct (X11_feature_postings d fd (KStr "u1") init eq_refl eq_refl
              ltac:(intros _; reflexivity) ltac:(discriminate) eq_refl)
    as [Hbrand Horigin].
  split.
  - pose proof (Hbrand "Acme Tools" "tools" eq_refl) as H.
    rewrite decide_True in H; [exact H |].
    apply (bool_decide_unpack _). by vm_compute.
  - pose proof (Horigin "France" "france" eq_refl) as H.
    rewrite decide_True in H; [exact H |].
    apply (bool_decide_unpack _). by vm_compute.
Defined.

(** ** Errors depend on the record alone *)

Section Stateless.
Context {St : Type}.

Lemma stateless_ret {A} (a : A) : stateless (ret (St := St) a).
Proof. done. Qed.

Lemma stateless_raise {A} e : stateless (raise (St := St) (A := A) e).
Proof. done. Qed.

Lemma stateless_bind {A B} (m : M St A) (k : A → M St B) :
  stateless m → (∀ a, stateless (k a)) → stateless (bind m k).
Proof.
  intros Hm Hk s1 s2. unfold bind. specialize (Hm s1 s2).
  destruct (m s1) as [[a1 | e1] s1'], (m s2) as [[a2 | e2] s2'];
    simpl in Hm; try discriminate.
  - injection Hm as ->. apply Hk.
  - by injection Hm as ->.
Qed.

Lemma stateless_if {A} (c : bool) (m1 m2 : M St A) :
  stateless m1 → stateless m2 → stateless (if c then m1 else m2).
Proof. by destruct c. Qed.

Lemma stateless_for_each {A} (l : list A) (body : A → M St unit) :
  (∀ x, stateless (body x)) → stateless (for_each l body).
Proof.
  intros Hbody. induction l as [| x l IH]; simpl; [apply stateless_ret |].
  apply stateless_bind; [apply Hbody | by intros _].
Qed.

Lemma stateless_map_m {A B} (f : A → M St B) (l : list A) :
  (∀ x, stateless (f x)) → stateless (map_m f l).
Proof.
  intros Hf. induction l as [| x l IH]; simpl; [apply stateless_ret |].
  apply stateless_bind; [apply Hf | intros y].
  apply stateless_bind; [apply IH | intros ys]. apply stateless_ret.
Qed.

Lemma stateless_zoom {T A} (get : St → T) (set : T → St → St) (m : M T A) :
  stateless m → stateless (zoom get set m).
Proof. intros Hm s1 s2. rewrite !zoom_fst. apply Hm. Qed.

Lemma stateless_py_get v k default : stateless (py_get (St := St) v k default).
Proof. by destruct v. Qed.

Lemma stateless_py_in k v : stateless (py_in (St := St) k v).
Proof. by destruct v. Qed.

Lemma stateless_py_getitem v k : stateless (py_getitem (St := St) v k).
Proof.
  destruct v as [| | | | | d |]; try done. simpl. by destruct (dict_lookup k d).
Qed.

Lemma stateless_py_iter v : stateless (py_iter (St := St) v).
Proof. by destruct v. Qed.

Lemma stateless_py_len v : stateless (py_len (St := St) v).
Proof. by destruct v. Qed.

Lemma stateless_py_tokenize v : stateless (py_tokenize (St := St) v).
Proof. by destruct v. Qed.

Lemma stateless_py_sum l : stateless (py_sum (St := St) l).
Proof. intros s1 s2. by rewrite !py_sum_run. Qed.

Lemma stateless_py_div total n : stateless (py_div (St := St) total n).
Proof. intros s1 s2. by rewrite !py_div_run. Qed.

Lemma stateless_finite_or_overflow f :
  stateless (F64.finite_or_overflow (St := St) f).
Proof. by destruct f. Qed.

Lemma stateless_truediv a b : stateless (F64.truediv (St := St) a b).
Proof.
  unfold F64.truediv. destruct (b =? 0); [done |].
  apply stateless_finite_or_overflow.
Qed.

Lemma stateless_round2 x : stateless (F64.round2 (St := St) x).
Proof. destruct x; try done. apply stateless_finite_or_overflow. Qed.

End Stateless.

Lemma stateless_positional_append token url position :
  stateless (positional_append token url position).
Proof. intros s1 s2. unfold positional_append. by destruct (hash_key url). Qed.

Lemma stateless_categorical_add token url :
  stateless (categorical_add token url).
Proof. intros s1 s2. unfold categorical_add. by destruct (hash_key url). Qed.

Lemma stateless_reviews_store url stats : stateless (reviews_store url stats).
Proof. intros s1 s2. unfold reviews_store. by destruct (hash_key url). Qed.

Lemma stateless_index_text text url : stateless (_index_text text url).
Proof.
  unfold _index_text. apply stateless_bind; [apply stateless_py_tokenize |].
  intros tokens. apply stateless_for_each. intros [p t].
  apply stateless_if; [apply stateless_positional_append | apply stateless_ret].
Qed.

Lemma stateless_index_feature name features url :
  stateless (index_feature name features url).
Proof.
  unfold index_feature. apply stateless_bind; [apply stateless_py_in |].
  intros present. apply stateless_if; [| apply stateless_ret].
  apply stateless_bind; [apply stateless_py_getitem |].
  intros value. apply stateless_if; [| apply stateless_ret].
  apply stateless_bind; [apply stateless_py_tokenize |].
  intros tokens. apply stateless_for_each. intros t.
  apply stateless_categorical_add.
Qed.

Lemma stateless_index_reviews reviews url :
  stateless (index_reviews reviews url).
Proof.
  unfold index_reviews. apply stateless_if; [| apply stateless_reviews_store].
  apply stateless_bind; [apply stateless_py_iter | intros items].
  apply stateless_bind.
  { apply stateless_map_m. intros review. apply stateless_py_get. }
  intros ratings.
  apply stateless_bind; [apply stateless_py_len | intros total].
  apply stateless_bind; [| intros mean; apply stateless_reviews_store].
  apply stateless_if; [| apply stateless_ret].
  apply stateless_bind; [apply stateless_py_sum | intros s].
  apply stateless_bind; [apply stateless_py_div | intros q].
  apply stateless_bind; [apply stateless_round2 | intros r].
  apply stateless_ret.
Qed.

Lemma stateless_process_product product :
  stateless (_process_product product).
Proof.
  unfold _process_product.
  apply stateless_bind; [apply stateless_py_get | intros url].
  apply stateless_if; [apply stateless_ret |].
  apply stateless_bind.
  { unfold process_title.
    apply stateless_bind; [apply stateless_py_get | intros title].
    apply stateless_if; [| apply stateless_ret].
    apply stateless_zoom, stateless_index_text. }
  intros _. apply stateless_bind.
  { unfold process_description.
    apply stateless_bind; [apply stateless_py_get | intros description].
    apply stateless_if; [| apply stateless_ret].
    apply stateless_zoom, stateless_index_text. }
  intros _. apply stateless_bind.
  { unfold process_features.
    apply stateless_bind; [apply stateless_py_get | intros features].
    apply stateless_bind; [| intros _];
      apply stateless_zoom, stateless_index_feature. }
  intros _. unfold process_reviews.
  apply stateless_bind; [apply stateless_py_get | intros reviews].
  apply stateless_zoom, stateless_index_reviews.
Qed.

Lemma process_lines_log_stateless lines : ∀ n b1 b2,
  (process_lines n lines b1).2 = (process_lines n lines b2).2.
Proof.
  induction lines as [| [product | | e0] rest IH]; intros n b1 b2; simpl;
    [done | | |].
  - pose proof (stateless_process_product product b1 b2) as H.
    destruct (_process_product product b1) as [[[] | e1] b1'],
      (_process_product product b2) as [[[] | e2] b2'];
      simpl in H; try discriminate.
    + apply IH.
    + injection H as ->. specialize (IH (S n) b1' b2').
      destruct (process_lines (S n) rest b1'), (process_lines (S n) rest b2').
      simpl in *. by rewrite IH.
  - specialize (IH (S n) b1 b2).
    destruct (process_lines (S n) rest b1), (process_lines (S n) rest b2).
    simpl in *. by rewrite IH.
  - specialize (IH (S n) b1 b2).
    destruct (process_lines (S n) rest b1), (process_lines (S n) rest b2).
    simpl in *. by rewrite IH.
Qed.

(** X12: whether a record is processed or raises, and which exception it
    raises, depends on the record alone, not on what the tables hold; so
    the messages printed for a file are the same from any starting tables,
    for instance when the file is processed a second time. *)
Theorem X12_errors_depend_on_the_record (product : json) (lines : list line)
    (b1 b2 : builder) :
  fst (_process_product product b1) = fst (_process_product product b2)
  ∧ (process_jsonl lines b1).2 = (process_jsonl lines b2).2.
Proof.
  split; [apply stateless_process_product |].
  apply process_lines_log_stateless.
Qed.

(** ** Review records are overwritten *)

Lemma stats_spec_functional reviews stats stats' :
  stats_spec reviews stats → stats_spec reviews stats' → stats = stats'.
Proof.
  unfold stats_spec. destruct (truthy reviews); [| congruence].
  intros (rds & total & q & -> & Hsum & Hq & ->)
         (rds' & total' & q' & Heq & Hsum' & Hq' & ->).
  injection Heq as Heq.
  assert (Inj (=) (=) JDict) by (intros ? ? [=]; done).
  apply (inj (fmap JDict)) in Heq. subst rds'.
  rewrite Hsum in Hsum'. injection Hsum' as <-.
  rewrite Hq in Hq'. by injection Hq' as <-.
Qed.

(** X13: when a record with a truthy url is processed, the review record
    stored under its url is determined by the record alone: whatever the
    table held for that url before is replaced, and processing the record
    from any other tables stores the same review record. *)
Theorem X13_review_record_is_overwritten (d : list (string * json))
    (k : key) (b1 b1' b2 : builder) :
  truthy (field "url" (JStr "") d) = true →
  hash_key (field "url" (JStr "") d) = Some k →
  _process_product (JDict d) b1 = (Val tt, b1') →
  is_Some (reviews_index b1' !! k)
  ∧ reviews_index (snd (_process_product (JDict d) b2)) !! k
    = reviews_index b1' !! k.
Proof.
  intros Hurl Hk Hrun.
  pose proof (process_product_reviews (JDict d) b1) as H1.
  pose proof (process_product_reviews (JDict d) b2) as H2.
  pose proof (stateless_process_product (JDict d) b1 b2) as Hfst.
  rewrite Hrun in H1, Hfst. simpl in Hfst.
  destruct (_process_product (JDict d) b2) as [[[] | e] b2'];
    [| discriminate].
  destruct H1 as [(? & [= <-] & ? & _) | (? & k1 & s1 & [= <-] & _ & Hk1 & E1 & Hs1)];
    [congruence |].
  destruct H2 as [(? & [= <-] & ? & _) | (? & k2 & s2 & [= <-] & _ & Hk2 & E2 & Hs2)];
    [congruence |].
  assert (k1 = k) as -> by congruence. assert (k2 = k) as -> by congruence.
  simpl. rewrite E1, E2, !lookup_insert_eq. split; [eauto |].
  f_equal. by apply (stats_spec_functional _ _ _ Hs2 Hs1).
Qed.

Lemma X13_review_record_is_overwritten_witness :
  let old :=
    JDict [("url", JStr "u1");
           ("product_reviews", JList [JDict [("rating", JInt 1)]])] in
  let d := [("url", JStr "u1");
            ("product_reviews", JList [JDict [("rating", JInt 5)];
                                       JDict [("rating", JInt 4)]])] in
  let b2 := snd (_process_product old init) in
  reviews_index (snd (_process_product (JDict d) b2)) !! KStr "u1"
  = reviews_index (snd (_process_product (JDict d) init)) !! KStr "u1".
Proof.
  intros old d b2.
  refine (proj2 (X13_review_record_is_overwritten d (KStr "u1") init
                   (snd (_process_product (JDict d) init)) b2
                   eq_refl eq_refl _)).
  by vm_compute.
Defined.

(** ** Product identifiers *)

Lemma drop_prefix_Some p : ∀ s r,
  drop_prefix p s = Some r ↔ s = p +:+ r.
Proof.
  induction p as [| a p IH]; intros s r; simpl.
  - split; [by intros [= ->] | by intros ->].
  - destruct s as [| c s]; [by rewrite append_cons |].
    rewrite append_cons. case_decide as Hac.
    + subst c. rewrite IH. split; [by intros -> | by intros [= ->]].
    + split; [done | intros [= ? _]; congruence].
Qed.

Lemma take_digits_spec s :
  ∃ rest, s = take_digits s +:+ rest
          ∧ all_chars is_digit (take_digits s) = true
          ∧ ∀ c rest', rest = String c rest' → is_digit c = false.
Proof.
  induction s as [| c s (rest & Hs & Hall & Hrest)]; simpl.
  - exists "". by repeat split.
  - destruct (is_digit c) eqn:Hc.
    + exists rest. rewrite append_cons, <- Hs. simpl. rewrite Hc.
      by repeat split.
    + exists (String c s). repeat split. by intros ? ? [= <- _].
Qed.

Lemma take_digits_cons c s : is_digit c = true → take_digits (String c s) ≠ "".
Proof. simpl. by intros ->. Qed.

Lemma match_product_id_Some url id :
  match_product_id url = Some id →
  ∃ post, url = "/product/" +:+ id +:+ post
          ∧ id ≠ "" ∧ all_chars is_digit id = true
          ∧ ∀ c post', post = String c post' → is_digit c = false.
Proof.
  unfold match_product_id.
  destruct (drop_prefix "/product/" url) as [rest |] eqn:E; [| done].
  apply drop_prefix_Some in E. case_decide as Hd; [done |].
  intros [= <-]. destruct (take_digits_spec rest) as (post & Hrest & ? & ?).
  exists post. repeat split; try done. by rewrite <- Hrest.
Qed.

Lemma match_product_id_None url c post :
  match_product_id url = None →
  url = "/product/" +:+ String c post → is_digit c = false.
Proof.
  unfold match_product_id. intros Hnone Hurl.
  apply drop_prefix_Some in Hurl. rewrite Hurl in Hnone.
  case_decide as Hd; [| done].
  destruct (is_digit c) eqn:Hc; [| done].
  by apply take_digits_cons with (s := post) in Hc.
Qed.

Lemma search_product_id_None url :
  search_product_id url = None →
  ∀ pre c post, url = pre +:+ "/product/" +:+ String c post →
                is_digit c = false.
Proof.
  induction url as [| a url IH]; intros Hnone pre c post Hurl.
  - destruct pre; [done | by rewrite append_cons in Hurl].
  - simpl in Hnone.
    destruct (match_product_id (String a url)) as [id |] eqn:E; [done |].
    destruct pre as [| a' pre].
    + by eapply match_product_id_None.
    + rewrite append_cons in Hurl. injection Hurl as _ Hurl.
      by eapply IH.
Qed.

Lemma search_product_id_Some url : ∀ id,
  search_product_id url = Some id →
  ∃ pre post,
    url = pre +:+ "/product/" +:+ id +:+ post
    ∧ id ≠ "" ∧ all_chars is_digit id = true
    ∧ (∀ c post', post = String c post' → is_digit c = false)
    ∧ ∀ pre' c post',
        url = pre' +:+ "/product/" +:+ String c post' →
        is_digit c = true →
        (String.length pre ≤ String.length pre')%nat.
Proof.
  induction url as [| a url IH]; intros id Hsome; simpl in Hsome.
  - by destruct (match_product_id "") eqn:E.
  - destruct (match_product_id (String a url)) as [id' |] eqn:E.
    + injection Hsome as ->.
      destruct (match_product_id_Some _ _ E) as (post & Hurl & ? & ? & ?).
      exists "", post. repeat split; try done. simpl. lia.
    + destruct (IH id Hsome) as (pre & post & Hurl & ? & ? & ? & Hleft).
      exists (String a pre), post. rewrite append_cons, <- Hurl.
      repeat split; try done.
      intros pre' c post' Hurl' Hc. destruct pre' as [| a' pre'].
      * rewrite (match_product_id_None _ c post' E Hurl') in Hc. done.
      * rewrite append_cons in Hurl'. injection Hurl' as _ Hurl'. simpl.
        specialize (Hleft pre' c post' Hurl' Hc). lia.
Qed.

(** X14: when [extract_url_info] returns, the product identifier is absent
    exactly when no [/product/] in the url is followed by a digit;
    otherwise it is the non-empty run of digits that follows the leftmost
    such [/product/], up to the first character that is not a digit. *)
Theorem X14_product_id_of_url (query_variant : string → res (option string))
    (url : string) (product_id variant : option string) :
  extract_url_info query_variant url = Val (product_id, variant) →
  (product_id = None ↔
   ∀ pre c post, url = pre +:+ "/product/" +:+ String c post →
                 is_digit c = false)
  ∧ ∀ id, product_id = Some id →
      ∃ pre post,
        url = pre +:+ "/product/" +:+ id +:+ post
        ∧ id ≠ "" ∧ all_chars is_digit id = true
        ∧ (∀ c post', post = String c post' → is_digit c = false)
        ∧ ∀ pre' c post',
            url = pre' +:+ "/product/" +:+ String c post' →
            is_digit c = true →
            (String.length pre ≤ String.length pre')%nat.
Proof.
  unfold extract_url_info. destruct (query_variant url); [| done].
  intros [= <- _]. split.
  - split; [apply search_product_id_None |].
    intros Hno. destruct (search_product_id url) as [id |] eqn:E; [| done].
    destruct (search_product_id_Some url id E)
      as (pre & post & Hurl & Hne & Hall & _).
    destruct id as [| c id]; [done |]. simpl in Hall.
    apply andb_prop in Hall as [Hc _].
    by rewrite (Hno pre c (id +:+ post)) in Hc.
  - apply search_product_id_Some.
Qed.

Lemma X14_product_id_of_url_witness :
  extract_url_info (λ _, Val (Some "red"))
    "https://shop.example/product/42/shoes?variant=red"
  = Val (Some "42", Some "red")
  ∧ ∃ pre post,
      "https://shop.example/product/42/shoes?variant=red"
      = pre +:+ "/product/" +:+ "42" +:+ post.
Proof.
  split; [reflexivity |].
  destruct (X14_product_id_of_url (λ _, Val (Some "red"))
              "https://shop.example/product/42/shoes?variant=red"
              (Some "42") (Some "red") eq_refl) as [_ H].
  destruct (H "42" eq_refl) as (pre & post & Hurl & _).
  by exists pre, post.
Defined.

(** ** Records of different documents commute *)

Section Acts.
Context {St : Type} (s0 : St).

Lemma composed_app (G : (St → St) → Prop) f1 f2 f :
  composed G f1 → composed G f2 → (∀ s, f s = f1 (f2 s)) → composed G f.
Proof.
  intros H1. revert f. induction H1 as [f1 Hid | f1 g h Hg Hh IH Hf1];
    intros f H2 Hf.
  - destruct H2 as [f2 Hid2 | f2 g h Hg Hh Hf2].
    + apply composed_id. intros s. by rewrite Hf, Hid, Hid2.
    + apply (composed_step G f g h); [done.. |].
      intros s. by rewrite Hf, Hid, Hf2.
  - apply (composed_step G f g (λ s, h (f2 s))); [done | |].
    + by apply IH.
    + intros s. by rewrite Hf, Hf1.
Qed.

Lemma composed_commute (G1 G2 : (St → St) → Prop) f1 f2 :
  (∀ g1 g2, G1 g1 → G2 g2 → ∀ s, g1 (g2 s) = g2 (g1 s)) →
  composed G1 f1 → composed G2 f2 → ∀ s, f1 (f2 s) = f2 (f1 s).
Proof.
  intros Hcomm H1 H2.
  assert (Hone : ∀ g1, G1 g1 → ∀ s, g1 (f2 s) = f2 (g1 s)).
  { intros g1 Hg1. induction H2 as [f2 Hid | f2 g h Hg Hh IH Hf2]; intros s.
    - by rewrite !Hid.
    - by rewrite !Hf2, (Hcomm g1 g Hg1 Hg), IH. }
  induction H1 as [f1 Hid | f1 g h Hg Hh IH Hf1]; intros s.
  - by rewrite !Hid.
  - by rewrite !Hf1, IH, Hone.
Qed.

Lemma acts_ret {A} G (a : A) : acts G (ret (St := St) a).
Proof.
  split; [done |]. exists (λ s, s). split; [by apply composed_id | done].
Qed.

Lemma acts_pure {A} G (m : M St A) :
  stateless m → (∀ s, snd (m s) = s) → acts G m.
Proof.
  intros Hst Hpure. split; [done |]. exists (λ s, s).
  split; [by apply composed_id | done].
Qed.

Lemma acts_bind {A B} G (m : M St A) (k : A → M St B) :
  acts G m → (∀ a, acts G (k a)) → acts G (bind m k).
Proof.
  intros [Hst (f & Hf & Hm)] Hk. split.
  { apply stateless_bind; [done |]. intros a. apply Hk. }
  destruct (m s0) as [[a | e] s0'] eqn:E0.
  - destruct (Hk a) as [_ (fk & Hfk & Hka)].
    exists (λ s, fk (f s)).
    split; [by apply (composed_app G fk f) |].
    intros s. unfold bind. specialize (Hst s s0). specialize (Hm s).
    rewrite E0 in Hst. destruct (m s) as [[a' | e'] s'];
      simpl in *; [| discriminate].
    injection Hst as ->. by rewrite Hka, Hm.
  - exists f. split; [done |].
    intros s. unfold bind. specialize (Hst s s0). specialize (Hm s).
    rewrite E0 in Hst. destruct (m s) as [[a' | e'] s'];
      simpl in *; [discriminate | done].
Qed.

Lemma acts_if {A} G (c : bool) (m1 m2 : M St A) :
  acts G m1 → acts G m2 → acts G (if c then m1 else m2).
Proof. by destruct c. Qed.

Lemma acts_for_each {A} G (l : list A) (body : A → M St unit) :
  (∀ x, acts G (body x)) → acts G (for_each l body).
Proof.
  intros Hbody. induction l as [| x l IH]; simpl; [apply acts_ret |].
  apply acts_bind; [apply Hbody | by intros _].
Qed.

End Acts.

Lemma acts_zoom {St T A} (G : (T → T) → Prop) (G' : (St → St) → Prop)
    (get : St → T) (set : T → St → St) (m : M T A) :
  (∀ t s, get (set t s) = t) →
  (∀ s, set (get s) s = s) →
  (∀ t t' s, set t (set t' s) = set t s) →
  (∀ u g, G u → (∀ s, g s = set (u (get s)) s) → G' g) →
  acts G m → acts G' (zoom get set m).
Proof.
  intros Hgs Hsg Hss Hlift [Hst (f & Hf & Hm)]. split.
  { by apply stateless_zoom. }
  exists (λ s, set (f (get s)) s). split.
  - clear Hm. induction Hf as [f Hid | f u h Hu Hh IH Hfu].
    + apply composed_id. intros s. by rewrite Hid.
    + apply (composed_step G' _ (λ s, set (u (get s)) s)
               (λ s, set (h (get s)) s)); [by eapply Hlift | done |].
      intros s. by rewrite Hfu, Hgs, Hss.
  - intros s. by rewrite zoom_snd, Hm.
Qed.

Lemma add_position_commute t1 k1 p1 t2 k2 p2 index :
  k1 ≠ k2 →
  add_position t1 k1 p1 (add_position t2 k2 p2 index)
  = add_position t2 k2 p2 (add_position t1 k1 p1 index).
Proof.
  intros Hk. unfold add_position.
  destruct (decide (t1 = t2)) as [-> | Ht].
  - rewrite !lookup_insert_eq. simpl. rewrite !insert_insert_eq.
    rewrite !lookup_insert_ne by done. f_equal.
    by apply insert_insert_ne.
  - rewrite !lookup_insert_ne by done. by apply insert_insert_ne.
Qed.

Lemma add_document_commute t1 k1 t2 k2 index :
  add_document t1 k1 (add_document t2 k2 index)
  = add_document t2 k2 (add_document t1 k1 index).
Proof.
  unfold add_document. destruct (decide (t1 = t2)) as [-> | Ht].
  - rewrite !lookup_insert_eq. simpl. rewrite !insert_insert_eq. f_equal.
    rewrite !(assoc_L (∪)). f_equal. apply (comm_L (∪)).
  - rewrite !lookup_insert_ne by done. by apply insert_insert_ne.
Qed.

Lemma record_update_commute k1 k2 g1 g2 :
  k1 ≠ k2 → record_update k1 g1 → record_update k2 g2 →
  ∀ b, g1 (g2 b) = g2 (g1 b).
Proof.
  intros Hk H1 H2 b.
  destruct H1 as [g1 u1 Hu1 E1 | g1 u1 Hu1 E1 | g1 u1 Hu1 E1 | g1 u1 Hu1 E1
                  | g1 u1 Hu1 E1];
    destruct H2 as [g2 u2 Hu2 E2 | g2 u2 Hu2 E2 | g2 u2 Hu2 E2 | g2 u2 Hu2 E2
                    | g2 u2 Hu2 E2];
    rewrite !E1, !E2; try done.
  - destruct Hu1 as (t1 & p1 & Hu1), Hu2 as (t2 & p2 & Hu2). simpl.
    unfold set_title_index. simpl. f_equal.
    by rewrite !Hu1, !Hu2, add_position_commute.
  - destruct Hu1 as (t1 & p1 & Hu1), Hu2 as (t2 & p2 & Hu2). simpl.
    unfold set_description_index. simpl. f_equal.
    by rewrite !Hu1, !Hu2, add_position_commute.
  - destruct Hu1 as (t1 & Hu1), Hu2 as (t2 & Hu2). simpl.
    unfold set_brand_index. simpl. f_equal.
    by rewrite !Hu1, !Hu2, add_document_commute.
  - destruct Hu1 as (t1 & Hu1), Hu2 as (t2 & Hu2). simpl.
    unfold set_origin_index. simpl. f_equal.
    by rewrite !Hu1, !Hu2, add_document_commute.
  - destruct Hu1 as (s1 & Hu1), Hu2 as (s2 & Hu2). simpl.
    unfold set_reviews_index. simpl. f_equal.
    by rewrite !Hu1, !Hu2, insert_insert_ne.
Qed.

Lemma acts_ext {St A} (G : (St → St) → Prop) (m m' : M St A) :
  (∀ s, m s = m' s) → acts G m → acts G m'.
Proof.
  intros Hext [Hst (f & Hf & Hm)]. split.
  - intros s1 s2. rewrite <- !Hext. apply Hst.
  - exists f. split; [done |]. intros s. rewrite <- Hext. apply Hm.
Qed.

Lemma acts_positional_append token url k position :
  hash_key url = Some k →
  acts (positional_update k) (positional_append token url position).
Proof.
  intros Hk. split; [apply stateless_positional_append |].
  exists (add_position token k position). split.
  - apply (composed_step _ _ (add_position token k position) (λ i, i));
      [by exists token, position | by apply composed_id | done].
  - intros i. by rewrite positional_append_hashable with (k := k).
Qed.

Lemma acts_categorical_add token url k :
  hash_key url = Some k →
  acts (categorical_update k) (categorical_add token url).
Proof.
  intros Hk. split; [apply stateless_categorical_add |].
  exists (add_document token k). split.
  - apply (composed_step _ _ (add_document token k) (λ i, i));
      [by exists token | by apply composed_id | done].
  - intros i. unfold categorical_add, add_document. by rewrite Hk.
Qed.

Lemma acts_index_text text url k :
  hash_key url = Some k → acts (positional_update k) (_index_text text url).
Proof.
  intros Hk. unfold _index_text. apply (acts_bind ∅).
  - apply acts_pure; [apply stateless_py_tokenize | by destruct text].
  - intros tokens. apply (acts_for_each ∅). intros [p t].
    apply acts_if; [by apply acts_positional_append | apply acts_ret].
Qed.

Lemma acts_index_feature name features url k :
  hash_key url = Some k →
  acts (categorical_update k) (index_feature name features url).
Proof.
  intros Hk. unfold index_feature. apply (acts_bind ∅).
  { apply acts_pure; [apply stateless_py_in | by destruct features]. }
  intros present. apply acts_if; [| apply acts_ret].
  apply (acts_bind ∅).
  { apply acts_pure; [apply stateless_py_getitem |].
    destruct features as [| | | | | d |]; try done.
    intros s. simpl. by destruct (dict_lookup name d). }
  intros value. apply acts_if; [| apply acts_ret].
  apply (acts_bind ∅).
  { apply acts_pure; [apply stateless_py_tokenize | by destruct value]. }
  intros tokens. apply (acts_for_each ∅). intros t.
  by apply acts_categorical_add.
Qed.

Lemma acts_index_reviews reviews url k :
  hash_key url = Some k →
  acts (reviews_update k) (index_reviews reviews url).
Proof.
  intros Hk. split; [apply stateless_index_reviews |].
  pose proof (index_reviews_spec reviews url ∅) as H0.
  destruct (index_reviews reviews url ∅) as [[[] | e] t0] eqn:E0.
  - destruct H0 as (k0 & stats0 & Hk0 & _ & Hspec0).
    exists (λ r, <[k := stats0]> r). split.
    + apply (composed_step _ _ (λ r, <[k := stats0]> r) (λ r, r));
        [by exists stats0 | by apply composed_id | done].
    + intros table.
      pose proof (index_reviews_spec reviews url table) as H.
      pose proof (stateless_index_reviews reviews url table ∅) as Hst.
      rewrite E0 in Hst.
      destruct (index_reviews reviews url table) as [[[] | e] t'];
        [| discriminate].
      destruct H as (k1 & stats & Hk1 & -> & Hspec). simpl.
      assert (k1 = k) as -> by congruence.
      by rewrite (stats_spec_functional _ _ _ Hspec Hspec0).
  - exists (λ r, r). split; [by apply composed_id |].
    intros table.
    pose proof (index_reviews_spec reviews url table) as H.
    pose proof (stateless_index_reviews reviews url table ∅) as Hst.
    rewrite E0 in Hst.
    destruct (index_reviews reviews url table) as [[[] | e'] t'];
      [discriminate | done].
Qed.

Lemma acts_py_get {St} (G : (St → St) → Prop) v k default :
  acts G (py_get v k default).
Proof. apply acts_pure; [apply stateless_py_get | by destruct v]. Qed.

Lemma acts_process_product d k :
  hash_key (field "url" (JStr "") d) = Some k →
  acts (record_update k) (_process_product (JDict d)).
Proof.
  intros Hk. set (url := field "url" (JStr "") d) in *.
  destruct (truthy url) eqn:Hurl.
  2:{ apply (acts_ext _ (ret tt)); [| apply acts_ret].
      intros b. by rewrite process_product_falsy_url. }
  eapply acts_ext.
  { intros b. symmetry. by apply process_product_blocks. }
  cbv zeta. fold url.
  apply (acts_bind init).
  { unfold process_title. apply (acts_bind init); [apply acts_py_get |].
    intros title. apply acts_if; [| apply acts_ret].
    apply (acts_zoom (positional_update k)); try done.
    - by intros [].
    - intros u g Hu Hg. by eapply update_title.
    - by apply acts_index_text. }
  intros _. apply (acts_bind init).
  { unfold process_description.
    apply (acts_bind init); [apply acts_py_get |].
    intros description. apply acts_if; [| apply acts_ret].
    apply (acts_zoom (positional_update k)); try done.
    - by intros [].
    - intros u g Hu Hg. by eapply update_description.
    - by apply acts_index_text. }
  intros _. apply (acts_bind init).
  { unfold process_features. apply (acts_bind init); [apply acts_py_get |].
    intros features. apply (acts_bind init); [| intros _].
    - apply (acts_zoom (categorical_update k)); try done.
      + by intros [].
      + intros u g Hu Hg. by eapply update_brand.
      + by apply acts_index_feature.
    - apply (acts_zoom (categorical_update k)); try done.
      + by intros [].
      + intros u g Hu Hg. by eapply update_origin.
      + by apply acts_index_feature. }
  intros _. unfold process_reviews.
  apply (acts_bind init); [apply acts_py_get |].
  intros reviews. apply (acts_zoom (reviews_update k)); try done.
  - by intros [].
  - intros u g Hu Hg. by eapply update_reviews.
  - by apply acts_index_reviews.
Qed.

Lemma process_product_commute d1 d2 k1 k2 b :
  hash_key (field "url" (JStr "") d1) = Some k1 →
  hash_key (field "url" (JStr "") d2) = Some k2 →
  k1 ≠ k2 →
  snd (_process_product (JDict d2) (snd (_process_product (JDict d1) b)))
  = snd (_process_product (JDict d1) (snd (_process_product (JDict d2) b))).
Proof.
  intros H1 H2 Hk.
  destruct (acts_process_product d1 k1 H1) as [_ (f1 & Hf1 & E1)].
  destruct (acts_process_product d2 k2 H2) as [_ (f2 & Hf2 & E2)].
  rewrite !E1, !E2.
  apply (composed_commute (record_update k2) (record_update k1)); try done.
  intros g2 g1 Hg2 Hg1 s. symmetry.
  by apply (record_update_commute k1 k2).
Qed.

Lemma process_lines_cons_state product rest n m b :
  (process_lines n (Decoded product :: rest) b).1
  = (process_lines m rest (snd (_process_product product b))).1.
Proof.
  simpl. destruct (_process_product product b) as [[[] | e] b1]; simpl.
  - apply process_lines_state_any_start.
  - pose proof (process_lines_state_any_start rest (S n) m b1) as H.
    by destruct (process_lines (S n) rest b1).
Qed.

Lemma process_lines_app_state l1 l2 n m b :
  (process_lines n (l1 ++ l2) b).1
  = (process_lines m l2 (process_lines n l1 b).1).1.
Proof.
  rewrite process_lines_app. destruct (process_lines n l1 b) as [b1 log1].
  pose proof (process_lines_state_any_start l2 (n + length l1) m b1) as H.
  by destruct (process_lines (n + length l1) l2 b1).
Qed.

(** X15: two records whose urls are hashable and different can be
    processed in either order: the five tables end up the same, whether or
    not one of the records raises; so exchanging two neighbouring lines of
    a file that carry such records does not change the tables the file
    produces. *)
Theorem X15_records_commute (d1 d2 : list (string * json)) (k1 k2 : key) :
  hash_key (field "url" (JStr "") d1) = Some k1 →
  hash_key (field "url" (JStr "") d2) = Some k2 →
  k1 ≠ k2 →
  (∀ b,
     snd (_process_product (JDict d2) (snd (_process_product (JDict d1) b)))
     = snd (_process_product (JDict d1)
              (snd (_process_product (JDict d2) b))))
  ∧ ∀ l1 l2 b,
      (process_jsonl
         (l1 ++ Decoded (JDict d1) :: Decoded (JDict d2) :: l2) b).1
      = (process_jsonl
           (l1 ++ Decoded (JDict d2) :: Decoded (JDict d1) :: l2) b).1.
Proof.
  intros H1 H2 Hk. split.
  - intros b. by apply (process_product_commute d1 d2 k1 k2).
  - intros l1 l2 b. unfold process_jsonl.
    rewrite !(process_lines_app_state l1 _ 1 1).
    rewrite !(process_lines_cons_state _ _ 1 1).
    by rewrite (process_product_commute d1 d2 k1 k2).
Qed.

Lemma X15_records_commute_witness :
  let d1 := [("url", JStr "u1"); ("title", JStr "Blue Widget");
             ("product_features", JDict [("brand", JStr "Acme")])] in
  let d2 := [("url", JStr "u2"); ("title", JStr "Red Widget");
             ("product_reviews", JList [JDict [("rating", JStr "five")]])] in
  snd (_process_product (JDict d2) (snd (_process_product (JDict d1) init)))
  = snd (_process_product (JDict d1) (snd (_process_product (JDict d2) init))).
Proof.
  intros d1 d2.
  apply (X15_records_commute d1 d2 (KStr "u1") (KStr "u2"));
    [reflexivity | reflexivity | discriminate].
Defined.

(** ** Which lines are reported *)

Lemma process_lines_processing_errors lines : ∀ n b j e,
  ProcessingError j e ∈ (process_lines n lines b).2 ↔
  (n ≤ j)%nat ∧ ∃ l, lines !! (j - n)%nat = Some l ∧ line_raises l e.
Proof.
  induction lines as [| l rest IH]; intros n b j e.
  - simpl. split; [by intros ?%elem_of_nil | by intros [_ (? & ? & _)]].
  - assert (Hstep : ∀ b1,
      ProcessingError j e ∈ (process_lines (S n) rest b1).2 ↔
      (n < j)%nat
      ∧ ∃ l0, (l :: rest) !! (j - n)%nat = Some l0 ∧ line_raises l0 e).
    { intros b1. rewrite IH. split.
      - intros [Hle (l0 & Hj & He)]. split; [lia |].
        exists l0. split; [| done].
        replace (j - n)%nat with (S (j - S n)) by lia. done.
      - intros [Hlt (l0 & Hj & He)]. split; [lia |].
        exists l0. split; [| done].
        replace (j - n)%nat with (S (j - S n)) in Hj by lia. done. }
    assert (Hhead : ∀ l0, (l :: rest) !! (n - n)%nat = Some l0 → l0 = l).
    { intros l0. replace (n - n)%nat with 0%nat by lia. by intros [= ->]. }
    destruct l as [product | | e0]; simpl.
    + pose proof (stateless_process_product product b init) as Hst.
      destruct (_process_product product b) as [[[] | e1] b1]; simpl in Hst.
      * rewrite Hstep. split.
        -- intros [? ?]. split; [lia | done].
        -- intros [Hle (l0 & Hj & He)].
           destruct (decide (j = n)) as [-> | ?].
           ++ apply Hhead in Hj as ->. simpl in He. congruence.
           ++ split; [lia | eauto].
      * specialize (Hstep b1).
        destruct (process_lines (S n) rest b1) as [b2 log]. simpl in *.
        rewrite elem_of_cons, Hstep. split.
        -- intros [[= -> ->] | [? ?]].
           ++ split; [lia |]. exists (Decoded product).
              split; [by replace (n - n)%nat with 0%nat by lia | done].
           ++ split; [lia | done].
        -- intros [Hle (l0 & Hj & He)].
           destruct (decide (j = n)) as [-> | ?].
           ++ left. apply Hhead in Hj as ->. simpl in He. congruence.
           ++ right. split; [lia | eauto].
    + specialize (Hstep b).
      destruct (process_lines (S n) rest b) as [b2 log]. simpl in *.
      rewrite elem_of_cons, Hstep. split.
      * intros [[=] | [? ?]]. split; [lia | done].
      * intros [Hle (l0 & Hj & He)].
        destruct (decide (j = n)) as [-> | ?].
        -- by apply Hhead in Hj as ->.
        -- right. split; [lia | eauto].
    + specialize (Hstep b).
      destruct (process_lines (S n) rest b) as [b2 log]. simpl in *.
      rewrite elem_of_cons, Hstep. split.
      * intros [[= -> ->] | [? ?]].
        -- split; [lia |]. exists (DecodeRaises e0).
           split; [by replace (n - n)%nat with 0%nat by lia | done].
        -- split; [lia | done].
      * intros [Hle (l0 & Hj & He)].
        destruct (decide (j = n)) as [-> | ?].
        -- left. apply Hhead in Hj as ->. simpl in He. by subst.
        -- right. split; [lia | eauto].
Qed.

(** X16: a file reports a processing error [e] for line [j] exactly when
    line [j] decodes to a record that raises [e], or decoding line [j]
    itself raises [e], an exception other than a JSON decoding error (too
    deep a nesting, too long a number); since raising depends on the line
    alone, this can be read off each line on its own, from empty tables. *)
Theorem X16_processing_errors_line_by_line (lines : list line) (b : builder)
    (j : nat) (e : exn) :
  ProcessingError j e ∈ (process_jsonl lines b).2 ↔
  (1 ≤ j)%nat
  ∧ ((∃ product, lines !! (j - 1)%nat = Some (Decoded product)
                 ∧ fst (_process_product product init) = Exc e)
     ∨ lines !! (j - 1)%nat = Some (DecodeRaises e)).
Proof.
  unfold process_jsonl. rewrite process_lines_processing_errors. split.
  - intros [Hj (l & Hl & He)]. split; [done |].
    destruct l as [product | | e0]; simpl in He; [| done |].
    + left. by exists product.
    + right. by subst.
  - intros [Hj [(product & Hl & He) | Hl]]; (split; [done |]).
    + by exists (Decoded product).
    + by exists (DecodeRaises e).
Qed.

(** ** Urls that cannot be keys *)

(** X17: a record whose url is truthy but unhashable (a non-empty list or
    dict) never returns; it raises, and no table holds anything for any
    document that it did not hold before: positions, memberships and review
    records are all as they were. *)
Theorem X17_unhashable_url_raises (d : list (string * json)) (b : builder) :
  truthy (field "url" (JStr "") d) = true →
  hash_key (field "url" (JStr "") d) = None →
  let b' := snd (_process_product (JDict d) b) in
  (∃ e, fst (_process_product (JDict d) b) = Exc e)
  ∧ ∀ k,
      (∀ t, entry (title_index b') t k = entry (title_index b) t k)
      ∧ (∀ t, entry (description_index b') t k
              = entry (description_index b) t k)
      ∧ (∀ t, k ∈ default ∅ (brand_index b' !! t)
              ↔ k ∈ default ∅ (brand_index b !! t))
      ∧ (∀ t, k ∈ default ∅ (origin_index b' !! t)
              ↔ k ∈ default ∅ (origin_index b !! t))
      ∧ reviews_index b' !! k = reviews_index b !! k.
Proof.
  intros Hurl Hk b0. subst b0. split.
  - pose proof (process_product_reviews (JDict d) b) as H.
    destruct (_process_product (JDict d) b) as [[[] | e] b']; [| by eexists].
    destruct H as [(? & [= <-] & ? & _) | (? & ? & ? & [= <-] & _ & ? & _)];
      congruence.
  - intros k. apply (process_product_other (JDict d) k b).
    + intros ? [= <-]. congruence.
    + by repeat split.
Qed.

Lemma X17_unhashable_url_raises_witness :
  let d := [("url", JList [JStr "u1"]); ("title", JStr "Blue Widget")] in
  fst (_process_product (JDict d) init) = Exc TypeError
  ∧ ∃ e, fst (_process_product (JDict d) init) = Exc e.
Proof.
  intros d. split; [by vm_compute |].
  exact (proj1 (X17_unhashable_url_raises d init eq_refl eq_refl)).
Defined.
